(** * Synapse: knowledge-graph ingestion and retrieval

    A shallow embedding of the Python services of the Synapse backend
    ([app/services/pdf_parser.py], [app/services/graph_builder.py],
    [app/services/chat_engine.py]) together with the properties that its
    design document states about them.

    Conventions.
    - A Python [str] is a list of Unicode code points ([N]).
    - Python [int]s are [Z]; slices follow Python's index normalisation.
    - A [while] loop is a fuel-indexed function returning [None] when the
      fuel runs out; termination is proved, never assumed.
    - Builtins whose full definition lives outside the repository
      ([str.lower], [str.upper], [json.loads], [repr], Cypher's [toLower])
      are fields of the [Builtins] class.
    - A Python exception is the [Raise] case of the [result] type; code
      that talks to the graph store threads the store explicitly. *)

From stdpp Require Import base numbers option list strings gmap.

Set Warnings "-register-all".
Local Open Scope Z_scope.

(* ================================================================== *)
(** * Part I. Definitions                                              *)
(* ================================================================== *)

(** ** Python strings *)
Module Py.

Definition char := N.
Definition str := list char.

(** A literal written with ASCII characters. *)
Definition lit (s : string) : str :=
  map Ascii.N_of_ascii (String.list_ascii_of_string s).

Definition NL : str := [10%N].

(** [len(s)] *)
Definition len (s : str) : Z := Z.of_nat (length s).

(** [str.isspace] on one code point (CPython's [_PyUnicode_IsWhitespace]). *)
Definition isspace (c : char) : bool :=
  ((9 <=? c) && (c <=? 13) || (28 <=? c) && (c <=? 32)
   || (c =? 133) || (c =? 160) || (c =? 5760)
   || (8192 <=? c) && (c <=? 8202)
   || (c =? 8232) || (c =? 8233) || (c =? 8239) || (c =? 8287)
   || (c =? 12288))%N.

(** [s.lstrip(chars)], [s.rstrip(chars)] with the character set given as
    a predicate; [s.strip()] uses [isspace]. *)
Fixpoint lstrip_by (p : char → bool) (s : str) : str :=
  match s with
  | [] => []
  | c :: s' => if p c then lstrip_by p s' else s
  end.

Definition rstrip_by (p : char → bool) (s : str) : str :=
  reverse (lstrip_by p (reverse s)).

Definition strip (s : str) : str := rstrip_by isspace (lstrip_by isspace s).

(** Truthiness of a string: [if s:] *)
Definition nonempty (s : str) : bool :=
  match s with [] => false | _ => true end.

(** Index normalisation of a slice bound: negative bounds count from the
    end, everything is clipped to [0, len]. *)
Definition clamp_index (n i : Z) : Z :=
  if i <? 0 then Z.max 0 (i + n) else Z.min i n.

(** [s[lo:hi]] *)
Definition slice (s : str) (lo hi : Z) : str :=
  let lo' := clamp_index (len s) lo in
  let hi' := clamp_index (len s) hi in
  take (Z.to_nat (hi' - lo')) (drop (Z.to_nat lo') s).

Fixpoint starts_with (sub s : str) : bool :=
  match sub, s with
  | [], _ => true
  | _ :: _, [] => false
  | a :: sub', b :: s' => (a =? b)%N && starts_with sub' s'
  end.

(** [rfind_at s sub i]: [s] is the suffix that starts at index [i] of the
    searched string; the highest index of a match, or [-1]. *)
Fixpoint rfind_at (s sub : str) (i : Z) : Z :=
  match s with
  | [] => if starts_with sub [] then i else -1
  | _ :: s' =>
      let r := rfind_at s' sub (i + 1) in
      if 0 <=? r then r
      else if starts_with sub s then i else -1
  end.

(** [s.rfind(sub)] *)
Definition rfind (s sub : str) : Z := rfind_at s sub 0.

(** [s.replace(old, new)] for a one-character [old]. *)
Definition replace_char (old : char) (new : str) (s : str) : str :=
  flat_map (λ c, if (c =? old)%N then new else [c]) s.


(** [sub in s] *)
Definition contains (s sub : str) : bool :=
  negb (rfind s sub =? -1).

(** [sub] occurs in [w] at offset [i]. *)
Definition occurs_at (sub w : str) (i : nat) : Prop :=
  (i ≤ length w)%nat ∧ sub `prefix_of` drop i w.

Definition occurs_in (sub w : str) : Prop := ∃ i, occurs_at sub w i.

Definition last_occurrence (sub w : str) (i : nat) : Prop :=
  occurs_at sub w i ∧ ∀ j, occurs_at sub w j → (j ≤ i)%nat.

(** *** Values and exceptions *)

(** The values that [json.loads] produces and that the services pass
    around.  A number is never inspected by the code, so one constructor
    stands for [int] and [float]. *)
Inductive value :=
| VNone
| VBool (b : bool)
| VNum (n : Z)
| VStr (s : str)
| VList (l : list value)
| VDict (d : list (str * value)).

Definition value_eq_dec : ∀ a b : value, {a = b} + {a ≠ b}.
Proof.
  fix IH 1. intros a b. decide equality.
  - apply bool_eq_dec.
  - apply Z.eq_dec.
  - apply (list_eq_dec (dec:=N.eq_dec)).
  - apply (list_eq_dec (dec:=IH)).
  - apply (list_eq_dec (dec:=prod_eq_dec
             (EqDecision0:=list_eq_dec (dec:=N.eq_dec)) (EqDecision1:=IH))).
Defined.

Global Instance value_eq : EqDecision value := value_eq_dec.

Inductive exn :=
| TimeoutError
| JSONDecodeError
| AttributeError
| TypeError
| KeyError
| ModelError
| StoreError.

(** The outcome of a Python call: a value or a raised exception. *)
Inductive result (A : Type) :=
| Ok (a : A)
| Raise (e : exn).
Global Arguments Ok {A} a.
Global Arguments Raise {A} e.

Definition bind {A B} (r : result A) (k : A → result B) : result B :=
  match r with
  | Ok a => k a
  | Raise e => Raise e
  end.

(** [try: body  except Exception: handler] *)
Definition try_except {A} (body : result A) (handler : exn → result A)
    : result A :=
  match body with
  | Ok a => Ok a
  | Raise e => handler e
  end.

(** Lookup in a dict kept as an association list in insertion order. *)
Fixpoint dict_lookup {V} (k : str) (d : list (str * V)) : option V :=
  match d with
  | [] => None
  | (k', v) :: d' => if decide (k = k') then Some v else dict_lookup k d'
  end.

(** [d[k] = v]: an existing key keeps its position, a new key goes last. *)
Fixpoint dict_set {V} (k : str) (v : V) (d : list (str * V)) : list (str * V) :=
  match d with
  | [] => [(k, v)]
  | (k', v') :: d' =>
      if decide (k = k') then (k, v) :: d' else (k', v') :: dict_set k v d'
  end.

(** [x.get(k, default)]: only a dict has [get]. *)
Definition get (x : value) (k : str) (dflt : value) : result value :=
  match x with
  | VDict d => Ok (default dflt (dict_lookup k d))
  | _ => Raise AttributeError
  end.

(** A method of [str] called on an arbitrary value. *)
Definition str_method {A} (x : value) (f : str → A) : result A :=
  match x with
  | VStr s => Ok (f s)
  | _ => Raise AttributeError
  end.

(** [len(x)] *)
Definition len_of (x : value) : result Z :=
  match x with
  | VStr s => Ok (len s)
  | VList l => Ok (Z.of_nat (length l))
  | VDict d => Ok (Z.of_nat (length d))
  | _ => Raise TypeError
  end.

(** The items that [list.extend(x)] appends. *)
Definition iterate (x : value) : result (list value) :=
  match x with
  | VStr s => Ok (map (λ c, VStr [c]) s)
  | VList l => Ok l
  | VDict d => Ok (map (λ kv, VStr kv.1) d)
  | _ => Raise TypeError
  end.

(** Truthiness: [if x:] *)
Definition truthy (x : value) : bool :=
  match x with
  | VNone => false
  | VBool b => b
  | VNum n => negb (n =? 0)
  | VStr s => nonempty s
  | VList l => match l with [] => false | _ => true end
  | VDict d => match d with [] => false | _ => true end
  end.

(** Builtins that are defined outside the repository and whose result the
    code only passes on. *)
Class Builtins := {
  (** [str.lower], [str.upper] *)
  str_lower : str → str;
  str_upper : str → str;
  (** [json.loads] *)
  json_loads : str → result value;
  (** [str(x)] for a value that is neither a string, [None] nor a bool *)
  repr : value → str;
  (** Cypher's [toLower] *)
  toLower : str → str;
}.

(** [str(x)], as an f-string renders a value. *)
Definition format `{Builtins} (x : value) : str :=
  match x with
  | VStr s => s
  | VNone => lit "None"
  | VBool true => lit "True"
  | VBool false => lit "False"
  | _ => repr x
  end.

End Py.

Notation "'let*' x ':=' r 'in' k" := (Py.bind r (λ x, k))
  (at level 10, x name, r at level 100, k at level 200, only parsing).

(** ** [app/services/pdf_parser.py] *)
Module PdfParser.
Import Py.

(** The sentence boundaries tried by the chunker, in order. *)
Definition boundaries : list str :=
  Eval cbv in [lit ". "; lit "? "; lit "! "; NL].

(** The [for boundary in ...] loop: the first boundary kind found in
    [full_text[start:end]] moves [end] just after its last occurrence and
    breaks; if none is found [end] is unchanged. *)
Fixpoint snap (full_text : str) (start end_ : Z) (bs : list str) : Z :=
  match bs with
  | [] => end_
  | boundary :: bs' =>
      let last_boundary := rfind (slice full_text start end_) boundary in
      if last_boundary =? -1 then snap full_text start end_ bs'
      else start + last_boundary + len boundary
  end.

(** The value of [end] once the boundary search of one iteration is over. *)
Definition window_end (full_text : str) (chunk_size start : Z) : Z :=
  let end_ := start + chunk_size in
  if end_ <? len full_text then snap full_text start end_ boundaries
  else end_.

(** The value assigned to [start] at the bottom of the loop body. *)
Definition next_start (end_ overlap start : Z) : Z :=
  let next := end_ - overlap in
  if next <=? start then start + 1 else next.

(** One iteration of the [while] body: the chunks so far and the next
    [start]. *)
Definition chunk_iter (full_text : str) (chunk_size overlap start : Z)
    (chunks : list str) : list str * Z :=
  let end_ := window_end full_text chunk_size start in
  let chunk := strip (slice full_text start end_) in
  let chunks' := if nonempty chunk then chunks ++ [chunk] else chunks in
  (chunks', next_start end_ overlap start).

(** [while start < len(full_text): ...] *)
Fixpoint chunk_loop (fuel : nat) (full_text : str) (chunk_size overlap : Z)
    (start : Z) (chunks : list str) : option (list str) :=
  if start <? len full_text then
    match fuel with
    | O => None
    | S fuel' =>
        let '(chunks', start') :=
          chunk_iter full_text chunk_size overlap start chunks in
        chunk_loop fuel' full_text chunk_size overlap start' chunks'
    end
  else Some chunks.

(** The text of all pages: [page_text + "\n"] for every non-empty page. *)
Fixpoint join_pages (pages : list str) : str :=
  match pages with
  | [] => []
  | page_text :: rest =>
      (if nonempty page_text then page_text ++ NL else []) ++ join_pages rest
  end.

(** [extract_text_from_pdf], from the page texts that the PDF reader
    yields.  The loop is given [len(full_text)] units of fuel. *)
Definition extract_text_from_pdf (pages : list str)
    (chunk_size overlap : Z) : option (list str) :=
  let full_text := join_pages pages in
  if nonempty (strip full_text) then
    chunk_loop (length full_text) full_text chunk_size overlap 0 []
  else Some [].

End PdfParser.

(** ** The graph store

    [app/neo4j_driver.py] and the Neo4j server behind it are not part of
    the sources.  The services reach them only through [execute_query], with
    five fixed Cypher texts; this module gives each text its effect on a
    property graph whose [Entity] nodes are identified by [name]. *)
Module Neo4j.
Import Py.

Record node := {
  n_type : value;
  n_description : value;
  n_document : value;
}.

(** A relationship; [e_type] is the [type] property that only the static
    [RELATED_TO] form sets. *)
Record edge := {
  e_source : str;
  e_kind : str;
  e_target : str;
  e_type : value;
  e_description : value;
}.

Record graph := {
  nodes : gmap str node;
  edges : list edge;
}.

(** The store: the graph, the number of queries received so far, and two
    counters of the write queries that materialised a node or an edge. *)
Record db := {
  db_graph : graph;
  calls : nat;
  node_writes : Z;
  edge_writes : Z;
}.

(** What the code cannot control: whether the APOC procedures are
    installed, and which calls fail (connection loss, rejected value). *)
Record store_env := {
  apoc_available : bool;
  call_fails : nat → bool;
}.

(** The five query texts of the services, with their parameters. *)
Inductive query :=
| MergeEntity (name type description document : value)
| MergeRelationshipApoc (source target rel_type : str) (description : value)
| MergeRelationshipStatic (source target rel_type : str) (description : value)
| SearchEntities (q : str)
| SampleEntities.

Record connection := {
  related_entity : value;
  related_type : value;
  relationship : value;
  related_description : value;
}.

(** A returned record: a merged relationship, or an entity with the
    collected maps of its neighbours. *)
Inductive record :=
| RelRecord (e : edge)
| EntityRecord (entity type description : value) (connections : list connection).

Definition RELATED_TO : str := Eval cbv in lit "RELATED_TO".

Definition same_apoc_edge (source target rel_type : str) (description : value)
    (e : edge) : Prop :=
  e_source e = source ∧ e_target e = target ∧ e_kind e = rel_type
  ∧ e_description e = description.

Definition same_static_edge (source target : str) (e : edge) : Prop :=
  e_source e = source ∧ e_target e = target ∧ e_kind e = RELATED_TO.

Global Instance connection_eq : EqDecision connection.
Proof. solve_decision. Defined.

Global Instance same_apoc_edge_dec source target rel_type description e :
  Decision (same_apoc_edge source target rel_type description e).
Proof. unfold same_apoc_edge. apply _. Defined.

Global Instance same_static_edge_dec source target e :
  Decision (same_static_edge source target e).
Proof. unfold same_static_edge. apply _. Defined.

(** [MERGE (n:Entity {name: $name}) SET n.type = ..., n.description = ...,
    n.document = ...]: the node is created or overwritten. *)
Definition merge_entity (name : str) (type description document : value)
    (g : graph) : graph :=
  {| nodes := <[name := {| n_type := type; n_description := description;
                           n_document := document |}]> (nodes g);
     edges := edges g |}.

(** [MATCH (a:Entity {name: $source}) MATCH (b:Entity {name: $target})]:
    a row only when both nodes exist. *)
Definition endpoints_exist (source target : str) (g : graph) : bool :=
  bool_decide (is_Some (nodes g !! source))
  && bool_decide (is_Some (nodes g !! target)).

(** [apoc.merge.relationship(a, $rel_type, {description: $description},
    {}, b, {})]: the relationship of that kind and description between
    the two nodes is matched, or created. *)
Definition apoc_merge (source target rel_type : str) (description : value)
    (g : graph) : graph * edge :=
  match filter (same_apoc_edge source target rel_type description) (edges g) with
  | e :: _ => (g, e)
  | [] =>
      let e := {| e_source := source; e_kind := rel_type; e_target := target;
                  e_type := VNone; e_description := description |} in
      ({| nodes := nodes g; edges := edges g ++ [e] |}, e)
  end.

(** [MERGE (a)-[r:RELATED_TO]->(b) SET r.type = $rel_type,
    r.description = $description] *)
Definition static_merge (source target rel_type : str) (description : value)
    (g : graph) : graph :=
  let set_props (e : edge) :=
    if decide (same_static_edge source target e)
    then {| e_source := e_source e; e_kind := e_kind e; e_target := e_target e;
            e_type := VStr rel_type; e_description := description |}
    else e in
  match filter (same_static_edge source target) (edges g) with
  | _ :: _ => {| nodes := nodes g; edges := map set_props (edges g) |}
  | [] =>
      {| nodes := nodes g;
         edges := edges g ++ [{| e_source := source; e_kind := RELATED_TO;
                                 e_target := target; e_type := VStr rel_type;
                                 e_description := description |}] |}
  end.

(** [OPTIONAL MATCH (n)-[r]-(m:Entity)] for the node called [name]: one
    map per relationship end, in either direction. *)
Definition neighbours (g : graph) (name : str) : list connection :=
  let conn (other kind : str) : list connection :=
    match nodes g !! other with
    | Some m => [{| related_entity := VStr other; related_type := n_type m;
                    relationship := VStr kind;
                    related_description := n_description m |}]
    | None => []
    end in
  flat_map (λ e,
    (if decide (e_source e = name) then conn (e_target e) (e_kind e) else [])
    ++ (if decide (e_target e = name) then conn (e_source e) (e_kind e) else []))
    (edges g).

(** [collect(DISTINCT {...}) AS connections]; a node without neighbour
    contributes the single map of nulls of the optional match. *)
Definition collect_connections (g : graph) (name : str) : list connection :=
  match neighbours g name with
  | [] => [{| related_entity := VNone; related_type := VNone;
              relationship := VNone; related_description := VNone |}]
  | cs => remove_dups cs
  end.

(** The [RETURN] clause shared by the two read queries. *)
Definition entity_record (g : graph) (kn : str * node) : record :=
  EntityRecord (VStr kn.1) (n_type kn.2) (n_description kn.2)
               (collect_connections g kn.1).

(** [WHERE toLower(n.name) CONTAINS toLower($query)
       OR toLower(n.description) CONTAINS toLower($query)]:
    a missing description is null, which does not make the disjunction
    true; [toLower] of a value that is not a string is rejected. *)
Definition matches `{Builtins} (q : str) (kn : str * node) : result bool :=
  let by_name := contains (toLower kn.1) (toLower q) in
  match n_description kn.2 with
  | VStr d => Ok (by_name || contains (toLower d) (toLower q))
  | VNone => Ok by_name
  | _ => Raise StoreError
  end.

Fixpoint filter_matching `{Builtins} (q : str) (l : list (str * node))
    : result (list (str * node)) :=
  match l with
  | [] => Ok []
  | kn :: l' =>
      let* m := matches q kn in
      let* rest := filter_matching q l' in
      Ok (if m then kn :: rest else rest)
  end.

(** [MATCH (n:Entity) WHERE ... WITH n LIMIT 10 OPTIONAL MATCH ... RETURN ...] *)
Definition search_entities `{Builtins} (q : str) (g : graph)
    : result (list record) :=
  let* found := filter_matching q (map_to_list (nodes g)) in
  Ok (map (entity_record g) (take 10 found)).

(** [MATCH (n:Entity) OPTIONAL MATCH ... RETURN ... LIMIT 20] *)
Definition sample_entities (g : graph) : list record :=
  take 20 (map (entity_record g) (map_to_list (nodes g))).

Definition received (st : db) : db :=
  {| db_graph := db_graph st; calls := S (calls st);
     node_writes := node_writes st; edge_writes := edge_writes st |}.

(** Modelled from the spec: [execute_query] of [app/neo4j_driver.py] is
    missing from the sources.  It runs one parameterised query against the
    store and returns the records, or raises; a call that raises leaves
    the graph as it was. *)
Definition execute_query `{Builtins} (env : store_env) (st : db) (q : query)
    : db * result (list record) :=
  let st' := received st in
  let g := db_graph st in
  if call_fails env (calls st) then (st', Raise StoreError)
  else
    match q with
    | MergeEntity name type description document =>
        match name with
        | VStr name =>
            ({| db_graph := merge_entity name type description document g;
                calls := calls st'; node_writes := node_writes st + 1;
                edge_writes := edge_writes st |}, Ok [])
        | _ => (st', Raise StoreError)
        end
    | MergeRelationshipApoc source target rel_type description =>
        if negb (apoc_available env) then (st', Raise StoreError)
        else if endpoints_exist source target g then
          let '(g', e) := apoc_merge source target rel_type description g in
          ({| db_graph := g'; calls := calls st';
              node_writes := node_writes st;
              edge_writes := edge_writes st + 1 |}, Ok [RelRecord e])
        else (st', Ok [])
    | MergeRelationshipStatic source target rel_type description =>
        if endpoints_exist source target g then
          ({| db_graph := static_merge source target rel_type description g;
              calls := calls st'; node_writes := node_writes st;
              edge_writes := edge_writes st + 1 |}, Ok [])
        else (st', Ok [])
    | SearchEntities q => (st', search_entities q g)
    | SampleEntities => (st', Ok (sample_entities g))
    end.

End Neo4j.

(** ** [app/services/graph_builder.py] *)
Module GraphBuilder.
Import Py Neo4j.

Definition K_entities : str := Eval cbv in lit "entities".
Definition K_relationships : str := Eval cbv in lit "relationships".
Definition K_name : str := Eval cbv in lit "name".
Definition K_type : str := Eval cbv in lit "type".
Definition K_description : str := Eval cbv in lit "description".
Definition K_source : str := Eval cbv in lit "source".
Definition K_target : str := Eval cbv in lit "target".

Definition FENCE : str := Eval cbv in lit "```".
Definition JSON_TAG : str := Eval cbv in lit "json".
Definition BACKTICK : char := 96%N.
Definition SPACE : char := 32%N.
Definition UNDERSCORE : str := Eval cbv in lit "_".

(** [re.sub] of the pattern [```(?:json)?\s*] by the empty string: every
    fence marker, with the optional language tag and the white space
    after it, is removed.  Each round consumes at least one character, so
    [len(text)] rounds are enough. *)
Fixpoint sub_fences (fuel : nat) (text : str) : str :=
  match fuel with
  | O => text
  | S fuel' =>
      match text with
      | [] => []
      | c :: text' =>
          if starts_with FENCE text then
            let rest := drop 3 text in
            let rest := if starts_with JSON_TAG rest then drop 4 rest else rest in
            sub_fences fuel' (lstrip_by isspace rest)
          else c :: sub_fences fuel' text'
      end
  end.

Definition strip_fences (text : str) : str := sub_fences (length text) text.

(** The result that stands for "nothing extracted". *)
Definition EMPTY : value :=
  VDict [(K_entities, VList []); (K_relationships, VList [])].

(** The two assignments to [cleaned] in [_parse_llm_json]. *)
Definition cleaned (text : str) : str :=
  let cleaned := strip_fences text in
  rstrip_by (λ c, c =? BACKTICK)%N (strip cleaned).

(** [_parse_llm_json]; [re.sub] rejects a [text] that is not a string. *)
Definition _parse_llm_json `{Builtins} (text : value) : result value :=
  match text with
  | VStr text =>
      try_except (json_loads (cleaned text))
        (λ e, match e with
              | JSONDecodeError => Ok EMPTY
              | _ => Raise e
              end)
  | _ => Raise TypeError
  end.

(** [_extract_with_timeout]; [response] is the outcome of awaiting the
    model under [asyncio.wait_for]: the content of its answer, or
    [TimeoutError], or whatever the call raised. *)
Definition _extract_with_timeout `{Builtins} (response : result value)
    : result value :=
  try_except
    (let* content := response in
     let* parsed := _parse_llm_json content in
     let* entities := get parsed K_entities (VList []) in
     let* rels := get parsed K_relationships (VList []) in
     let* _entities := len_of entities in
     let* _rels := len_of rels in
     Ok parsed)
    (λ e, match e with
          | TimeoutError => Ok EMPTY
          | _ => Ok EMPTY
          end).

(** A value that has a length. *)
Definition sized (x : value) : bool :=
  match x with
  | VStr _ | VList _ | VDict _ => true
  | _ => false
  end.

(** A parsed document that [_extract_with_timeout] returns as it is: a
    dict whose [entities] and [relationships], when present, have a
    length. *)
Definition well_shaped (parsed : value) : bool :=
  match parsed with
  | VDict d =>
      sized (default (VList []) (dict_lookup K_entities d))
      && sized (default (VList []) (dict_lookup K_relationships d))
  | _ => false
  end.

(** *** The extraction tasks under the semaphore *)

(** A task waits for the semaphore, runs the extraction inside
    [async with semaphore], and is done with the outcome of
    [_extract_with_timeout]. *)
Inductive task :=
| Waiting
| Running
| Done (r : result value).

Record gather_state := {
  permits : nat;
  tasks : list task;
}.

(** [asyncio.Semaphore(5)] *)
Definition MAX_PARALLEL : nat := 5.

(** [tasks = [process_chunk(i + 1, chunk) for i, chunk in enumerate(chunks)]] *)
Definition launch (max_parallel : nat) (chunks : list str) : gather_state :=
  {| permits := max_parallel; tasks := replicate (length chunks) Waiting |}.

(** The event loop resumes task [i]: a waiting task enters the semaphore
    if a permit is left; a running task finishes its extraction and the
    semaphore is released on the way out, whatever the outcome. *)
Definition advance `{Builtins} (llm : nat → str → result value)
    (chunks : list str) (i : nat) (s : gather_state) : option gather_state :=
  match tasks s !! i, chunks !! i with
  | Some Waiting, Some _ =>
      match permits s with
      | O => None
      | S p => Some {| permits := p; tasks := <[i := Running]> (tasks s) |}
      end
  | Some Running, Some c =>
      Some {| permits := S (permits s);
              tasks := <[i := Done (_extract_with_timeout (llm i c))]> (tasks s) |}
  | _, _ => None
  end.

(** A run of the event loop: the indices of the tasks it resumes. *)
Fixpoint run `{Builtins} (llm : nat → str → result value) (chunks : list str)
    (schedule : list nat) (s : gather_state) : option gather_state :=
  match schedule with
  | [] => Some s
  | i :: schedule' =>
      match advance llm chunks i s with
      | Some s' => run llm chunks schedule' s'
      | None => None
      end
  end.

Definition is_running (t : task) : bool :=
  match t with Running => true | _ => false end.

(** The number of extraction calls in flight. *)
Definition outstanding (s : gather_state) : nat :=
  sum_list (map (λ t, if is_running t then 1%nat else 0%nat) (tasks s)).

(** What awaiting [asyncio.gather] on the tasks yields in a state: nothing while a
    task is unfinished, the exception of a task that raised, the results
    in task order otherwise. *)
Fixpoint gathered (ts : list task) : option (result (list value)) :=
  match ts with
  | [] => Some (Ok [])
  | Done (Raise e) :: _ => Some (Raise e)
  | Done (Ok r) :: ts' =>
      match gathered ts' with
      | Some (Ok rs) => Some (Ok (r :: rs))
      | other => other
      end
  | _ :: ts' =>
      match gathered ts' with
      | Some (Raise e) => Some (Raise e)
      | _ => None
      end
  end.

Definition is_done (t : task) : bool :=
  match t with Done _ => true | _ => false end.

(** The steps a task still has to take: enter the semaphore, finish. *)
Definition steps_left (t : task) : nat :=
  match t with
  | Waiting => 2
  | Running => 1
  | Done _ => 0
  end.

Definition remaining (s : gather_state) : nat :=
  sum_list (map steps_left (tasks s)).

(** The results of [gather] as a function of the per-chunk outcomes. *)
Fixpoint extract_all `{Builtins} (llm : nat → str → result value) (i : nat)
    (chunks : list str) : result (list value) :=
  match chunks with
  | [] => Ok []
  | c :: chunks' =>
      let* parsed := _extract_with_timeout (llm i c) in
      let* rest := extract_all llm (S i) chunks' in
      Ok (parsed :: rest)
  end.

(** What a finished task holds is the extraction result of its chunk. *)
Definition results_faithful `{Builtins} (llm : nat → str → result value)
    (chunks : list str) (s : gather_state) : Prop :=
  length (tasks s) = length chunks
  ∧ ∀ i r, tasks s !! i = Some (Done r) →
      ∃ c, chunks !! i = Some c ∧ r = _extract_with_timeout (llm i c).

(** [for parsed in results: all_entities.extend(...);
    all_relationships.extend(...)] *)
Fixpoint aggregate (results : list value)
    (all_entities all_relationships : list value)
    : result (list value * list value) :=
  match results with
  | [] => Ok (all_entities, all_relationships)
  | parsed :: results' =>
      let* entities := get parsed K_entities (VList []) in
      let* entities := iterate entities in
      let* rels := get parsed K_relationships (VList []) in
      let* rels := iterate rels in
      aggregate results' (all_entities ++ entities) (all_relationships ++ rels)
  end.

(** The entities and the relationships that one per-chunk result
    contributes. *)
Definition items_of (key : str) (parsed : value) : list value :=
  match bind (get parsed key (VList [])) iterate with
  | Ok items => items
  | Raise _ => []
  end.

(** *** Deduplication *)

(** The body of the deduplication loop. *)
Definition remember `{Builtins} (seen_entities : list (str * value))
    (entity : value) : result (list (str * value)) :=
  let* name := get entity K_name (VStr []) in
  let* name := str_method name strip in
  Ok (if nonempty name then dict_set (str_lower name) entity seen_entities
      else seen_entities).

Fixpoint deduplicate `{Builtins} (seen_entities : list (str * value))
    (all_entities : list value) : result (list (str * value)) :=
  match all_entities with
  | [] => Ok seen_entities
  | entity :: rest =>
      let* seen_entities := remember seen_entities entity in
      deduplicate seen_entities rest
  end.




(** [list(seen_entities.values())] *)
Definition values {V} (d : list (str * V)) : list V := map snd d.

(** *** Writing *)

(** A [for] loop whose body updates the store and a counter and may
    raise. *)
Fixpoint for_each {A} (body : db → Z → A → db * result Z)
    (st : db) (count : Z) (items : list A) : db * result Z :=
  match items with
  | [] => (st, Ok count)
  | x :: items' =>
      match body st count x with
      | (st', Ok count') => for_each body st' count' items'
      | (st', Raise e) => (st', Raise e)
      end
  end.

(** The body of the node loop.  The parameters are built inside the
    [try]; the handler formats [entity.get('name')] for the log. *)
Definition write_node `{Builtins} (env : store_env) (document_name : str)
    (st : db) (nodes_created : Z) (entity : value) : db * result Z :=
  let handler := let* _name := get entity K_name VNone in Ok nodes_created in
  let params :=
    let* name := get entity K_name (VStr (lit "Unknown")) in
    let* type := get entity K_type (VStr (lit "UNKNOWN")) in
    let* description := get entity K_description (VStr []) in
    Ok (MergeEntity name type description (VStr document_name)) in
  match params with
  | Ok q =>
      match execute_query env st q with
      | (st', Ok _) => (st', Ok (nodes_created + 1))
      | (st', Raise _) => (st', handler)
      end
  | Raise _ => (st, handler)
  end.

(** The body of the relationship loop. *)
Definition write_relationship `{Builtins} (env : store_env)
    (st : db) (rels_created : Z) (rel : value) : db * result Z :=
  let fields :=
    let* source := get rel K_source (VStr []) in
    let* source := str_method source strip in
    let* target := get rel K_target (VStr []) in
    let* target := str_method target strip in
    let* rel_type := get rel K_type (VStr RELATED_TO) in
    let* rel_type :=
      str_method rel_type (λ s, str_upper (replace_char SPACE UNDERSCORE s)) in
    let* description := get rel K_description (VStr []) in
    Ok (source, target, rel_type, description) in
  match fields with
  | Raise e => (st, Raise e)
  | Ok (source, target, rel_type, description) =>
      if negb (nonempty source) || negb (nonempty target) then
        (st, Ok rels_created)
      else
        match execute_query env st
                (MergeRelationshipApoc source target rel_type description) with
        | (st1, Ok _) => (st1, Ok (rels_created + 1))
        | (st1, Raise _) =>
            match execute_query env st1
                    (MergeRelationshipStatic source target rel_type description) with
            | (st2, Ok _) => (st2, Ok (rels_created + 1))
            | (st2, Raise _) => (st2, Ok rels_created)
            end
        end
  end.




Record counts := {
  nodes_created : Z;
  relationships_created : Z;
}.

(** [build_knowledge_graph]: [llm i c] is the outcome of awaiting the
    model on the chunk [c] at position [i]. *)
Definition build_knowledge_graph `{Builtins} (env : store_env)
    (llm : nat → str → result value)
    (chunks : list str) (document_name : str) (st : db)
    : db * result counts :=
  let extracted :=
    let* results := extract_all llm 0 chunks in
    let* all := aggregate results [] [] in
    let* seen_entities := deduplicate [] all.1 in
    Ok (values seen_entities, all.2) in
  match extracted with
  | Raise e => (st, Raise e)
  | Ok (unique_entities, all_relationships) =>
      match for_each (write_node env document_name) st 0 unique_entities with
      | (st1, Raise e) => (st1, Raise e)
      | (st1, Ok nodes_created) =>
          match for_each (write_relationship env) st1 0 all_relationships with
          | (st2, Raise e) => (st2, Raise e)
          | (st2, Ok rels_created) =>
              (st2, Ok {| nodes_created := nodes_created;
                          relationships_created := rels_created |})
          end
      end
  end.

End GraphBuilder.

(** ** [app/services/chat_engine.py] *)
Module ChatEngine.
Import Py Neo4j.







End ChatEngine.

(** ** Builtins for ASCII text

    An instance used to run the definitions on concrete inputs: case
    conversion of the letters A-Z and a-z, and a [json_loads] that knows a
    few literal documents. *)
Module AsciiText.
Import Py.

Definition lower_char (c : char) : char :=
  if ((65 <=? c) && (c <=? 90))%N then (c + 32)%N else c.

Definition upper_char (c : char) : char :=
  if ((97 <=? c) && (c <=? 122))%N then (c - 32)%N else c.

(** A [json.loads] that knows the documents of a table and rejects any
    other text. *)
Definition loads (table : list (str * value)) (text : str) : result value :=
  match dict_lookup text table with
  | Some parsed => Ok parsed
  | None => Raise JSONDecodeError
  end.

Definition builtins_with (table : list (str * value)) : Builtins :=
  {| str_lower := map lower_char;
     str_upper := map upper_char;
     json_loads := loads table;
     repr := λ _, lit "?";
     toLower := map lower_char |}.

Definition builtins : Builtins :=
  builtins_with [(lit "{}", VDict []); (lit "[]", VList []); (lit "null", VNone)].

End AsciiText.

(** ** An ingestion run

    One chunk whose extraction names the entity Alice and a relationship
    from Alice to Bob, for whom no entity was extracted; the store is empty,
    has APOC, and no call fails. *)
Module Scenario.
Import Py Neo4j GraphBuilder.

Definition quoted (s : string) : str := [34%N] ++ lit s ++ [34%N].

Definition answer_text : str :=
  Eval cbv in
    lit "{" ++ quoted "entities" ++ lit ": [{" ++ quoted "name" ++ lit ": "
    ++ quoted "Alice" ++ lit ", " ++ quoted "type" ++ lit ": " ++ quoted "PERSON"
    ++ lit "}], " ++ quoted "relationships" ++ lit ": [{" ++ quoted "source"
    ++ lit ": " ++ quoted "Alice" ++ lit ", " ++ quoted "target" ++ lit ": "
    ++ quoted "Bob" ++ lit ", " ++ quoted "type" ++ lit ": " ++ quoted "knows"
    ++ lit "}]}".

Definition answer : value :=
  VDict
    [(K_entities,
      VList [VDict [(K_name, VStr (lit "Alice")); (K_type, VStr (lit "PERSON"))]]);
     (K_relationships,
      VList [VDict [(K_source, VStr (lit "Alice")); (K_target, VStr (lit "Bob"));
                    (K_type, VStr (lit "knows"))]])].

Definition one_chunk_builtins : Builtins :=
  AsciiText.builtins_with [(answer_text, answer)].

Definition llm (i : nat) (chunk : str) : result value := Ok (VStr answer_text).

Definition env : store_env :=
  {| apoc_available := true; call_fails := λ _, false |}.

Definition empty_store : db :=
  {| db_graph := {| nodes := ∅; edges := [] |};
     calls := 0; node_writes := 0; edge_writes := 0 |}.


Definition chunks : list str := [lit "Alice knows Bob."].

Definition document_name : str := lit "people.pdf".

(** The end-to-end run of the design document: three chunks; the first
    answer names Alice, Acme Corp and that Alice worked at Acme Corp, the
    second names alice again, the third call times out. *)
Definition first_text : str :=
  Eval cbv in
    lit "{" ++ quoted "entities" ++ lit ": [{" ++ quoted "name" ++ lit ": "
    ++ quoted "Alice" ++ lit "}, {" ++ quoted "name" ++ lit ": "
    ++ quoted "Acme Corp" ++ lit "}], " ++ quoted "relationships" ++ lit ": [{"
    ++ quoted "source" ++ lit ": " ++ quoted "Alice" ++ lit ", "
    ++ quoted "target" ++ lit ": " ++ quoted "Acme Corp" ++ lit ", "
    ++ quoted "type" ++ lit ": " ++ quoted "WORKED_AT" ++ lit "}]}".

Definition first_answer : value :=
  VDict
    [(K_entities,
      VList [VDict [(K_name, VStr (lit "Alice"))];
             VDict [(K_name, VStr (lit "Acme Corp"))]]);
     (K_relationships,
      VList [VDict [(K_source, VStr (lit "Alice"));
                    (K_target, VStr (lit "Acme Corp"));
                    (K_type, VStr (lit "WORKED_AT"))]])].

Definition second_text : str :=
  Eval cbv in
    lit "{" ++ quoted "entities" ++ lit ": [{" ++ quoted "name" ++ lit ": "
    ++ quoted "alice" ++ lit "}], " ++ quoted "relationships" ++ lit ": []}".

Definition second_answer : value :=
  VDict
    [(K_entities, VList [VDict [(K_name, VStr (lit "alice"))]]);
     (K_relationships, VList [])].

Definition three_chunk_builtins : Builtins :=
  AsciiText.builtins_with
    [(first_text, first_answer); (second_text, second_answer)].

Definition three_chunk_llm (i : nat) (chunk : str) : result value :=
  match i with
  | 0%nat => Ok (VStr first_text)
  | 1%nat => Ok (VStr second_text)
  | _ => Raise TimeoutError
  end.

Definition three_chunks : list str :=
  [lit "Alice worked at Acme Corp."; lit "alice."; lit "more"].

(** A store with two entities and the relationship between them. *)
Definition linked_store : db :=
  {| db_graph :=
       {| nodes :=
            <[ lit "Acme Corp" := {| n_type := VStr (lit "COMPANY");
                                     n_description := VNone;
                                     n_document := VStr (lit "people.pdf") |} ]>
              {[ lit "Alice" := {| n_type := VStr (lit "PERSON");
                                   n_description := VStr (lit "Engineer");
                                   n_document := VStr (lit "people.pdf") |} ]};
          edges := [{| e_source := lit "Alice"; e_kind := lit "WORKED_AT";
                       e_target := lit "Acme Corp"; e_type := VNone;
                       e_description := VStr [] |}] |};
     calls := 0; node_writes := 0; edge_writes := 0 |}.

(** An answer in which the name of the second entity is the JSON value
    null. *)
Definition null_name_text : str :=
  Eval cbv in
    lit "{" ++ quoted "entities" ++ lit ": [{" ++ quoted "name" ++ lit ": "
    ++ quoted "Alice" ++ lit "}, {" ++ quoted "name" ++ lit ": null}], "
    ++ quoted "relationships" ++ lit ": []}".

Definition named_alice : value := VDict [(K_name, VStr (lit "Alice"))].

Definition named_null : value := VDict [(K_name, VNone)].

Definition null_name_answer : value :=
  VDict [(K_entities, VList [named_alice; named_null]);
         (K_relationships, VList [])].

Definition null_name_builtins : Builtins :=
  AsciiText.builtins_with [(null_name_text, null_name_answer)].

Definition null_name_llm (i : nat) (chunk : str) : result value :=
  Ok (VStr null_name_text).

(** An answer whose first relationship has an empty source and the JSON
    value null as its type, followed by a relationship between the two
    extracted entities. *)
Definition null_type_text : str :=
  Eval cbv in
    lit "{" ++ quoted "entities" ++ lit ": [{" ++ quoted "name" ++ lit ": "
    ++ quoted "Alice" ++ lit "}, {" ++ quoted "name" ++ lit ": "
    ++ quoted "Bob" ++ lit "}], " ++ quoted "relationships" ++ lit ": [{"
    ++ quoted "source" ++ lit ": " ++ [34%N; 34%N] ++ lit ", "
    ++ quoted "target" ++ lit ": " ++ quoted "Bob" ++ lit ", "
    ++ quoted "type" ++ lit ": null}, {"
    ++ quoted "source" ++ lit ": " ++ quoted "Alice" ++ lit ", "
    ++ quoted "target" ++ lit ": " ++ quoted "Bob" ++ lit ", "
    ++ quoted "type" ++ lit ": " ++ quoted "knows" ++ lit "}]}".

Definition blank_source_null_type : value :=
  VDict [(K_source, VStr []); (K_target, VStr (lit "Bob")); (K_type, VNone)].

Definition alice_knows_bob : value :=
  VDict [(K_source, VStr (lit "Alice")); (K_target, VStr (lit "Bob"));
         (K_type, VStr (lit "knows"))].

Definition two_entities : value :=
  VList [VDict [(K_name, VStr (lit "Alice"))]; VDict [(K_name, VStr (lit "Bob"))]].

Definition null_type_answer : value :=
  VDict [(K_entities, two_entities);
         (K_relationships, VList [blank_source_null_type; alice_knows_bob])].

(** The same answer without the first relationship. *)
Definition knows_text : str :=
  Eval cbv in
    lit "{" ++ quoted "entities" ++ lit ": [{" ++ quoted "name" ++ lit ": "
    ++ quoted "Alice" ++ lit "}, {" ++ quoted "name" ++ lit ": "
    ++ quoted "Bob" ++ lit "}], " ++ quoted "relationships" ++ lit ": [{"
    ++ quoted "source" ++ lit ": " ++ quoted "Alice" ++ lit ", "
    ++ quoted "target" ++ lit ": " ++ quoted "Bob" ++ lit ", "
    ++ quoted "type" ++ lit ": " ++ quoted "knows" ++ lit "}]}".

Definition knows_answer : value :=
  VDict [(K_entities, two_entities); (K_relationships, VList [alice_knows_bob])].

Definition null_type_builtins : Builtins :=
  AsciiText.builtins_with
    [(null_type_text, null_type_answer); (knows_text, knows_answer)].

Definition null_type_llm (i : nat) (chunk : str) : result value :=
  Ok (VStr null_type_text).

Definition knows_llm (i : nat) (chunk : str) : result value :=
  Ok (VStr knows_text).

End Scenario.

(** ** The windows of the chunker

    The chunking loop of [extract_text_from_pdf] once more, recording the
    bounds [start] and [end] of every window instead of its text. *)
Module PdfWindows.
Import Py PdfParser.

Fixpoint chunk_spans (fuel : nat) (full_text : str) (chunk_size overlap : Z)
    (start : Z) : option (list (Z * Z)) :=
  if start <? len full_text then
    match fuel with
    | O => None
    | S fuel' =>
        let end_ := window_end full_text chunk_size start in
        match chunk_spans fuel' full_text chunk_size overlap
                (next_start end_ overlap start) with
        | Some spans => Some ((start, end_) :: spans)
        | None => None
        end
    end
  else Some [].

(** [chunk = full_text[start:end].strip()] and [if chunk:] for one window. *)
Definition chunk_of (full_text : str) (span : Z * Z) : option str :=
  let chunk := strip (slice full_text span.1 span.2) in
  if nonempty chunk then Some chunk else None.

(** Only white space. *)
Definition blank (s : str) : Prop := Forall (λ c, isspace c = true) s.

End PdfWindows.

(** ** What a retrieved context shows

    Predicates over the graph and the returned text, used to state what
    [_retrieve_subgraph] returns without reference to its formatting
    code. *)
Module Context.
Import Py Neo4j.

(** [x] is a contiguous part of [s]. *)
Definition part_of (x s : str) : Prop := ∃ before after, s = before ++ x ++ after.

(** The graph holds a relationship of kind [kind] between the nodes called
    [name] and [other], in either direction. *)
Definition adjacent (g : graph) (name kind other : str) : Prop :=
  ∃ e, e ∈ edges g ∧ e_kind e = kind
       ∧ (e_source e = name ∧ e_target e = other
          ∨ e_target e = name ∧ e_source e = other).

(** The first line of the text of an entity. *)
Definition header `{Builtins} (name : str) (n : node) : str :=
  lit "Entity: " ++ name ++ lit " (Type: " ++ format (n_type n) ++ lit ")".

(** The line for a description that is present. *)
Definition description_line `{Builtins} (n : node) : str :=
  if truthy (n_description n)
  then NL ++ lit "  Description: " ++ format (n_description n)
  else [].

(** The line for the neighbour [other], a node [m], reached through a
    relationship of kind [kind]; the arrow is U+2192. *)
Definition neighbour_line `{Builtins} (kind other : str) (m : node) : str :=
  NL ++ lit "  " ++ [8594%N] ++ lit " " ++ kind ++ lit " " ++ [8594%N]
  ++ lit " " ++ other ++ lit " (" ++ format (n_type m) ++ lit ")".

(** [block] is the text of the entity [name]: it starts with the header
    and the description, shows a line for every neighbour that has a name,
    and is nothing more than header and description when there is no such
    neighbour. *)
Definition describes `{Builtins} (g : graph) (kn : str * node) (block : str)
    : Prop :=
  (header kn.1 kn.2 ++ description_line kn.2) `prefix_of` block
  ∧ (∀ kind other m,
       adjacent g kn.1 kind other → nodes g !! other = Some m → other ≠ [] →
       part_of (neighbour_line kind other m) block)
  ∧ ((∀ kind other m,
        adjacent g kn.1 kind other → nodes g !! other = Some m → other = []) →
     block = header kn.1 kn.2 ++ description_line kn.2).

End Context.

(* ================================================================== *)
(** * Part II. Properties                                              *)
(* ================================================================== *)

(** ** Facts about Python strings *)
Module PyFacts.
Import Py.

Lemma len_nonneg (s : str) : 0 ≤ len s.
Proof. unfold len. lia. Qed.

Lemma len_app (s t : str) : len (s ++ t) = len s + len t.
Proof. unfold len. rewrite length_app. lia. Qed.

Lemma lstrip_by_length p (s : str) : (length (lstrip_by p s) ≤ length s)%nat.
Proof.
  induction s as [|c s IH]; simpl; [lia|].
  destruct (p c); simpl; lia.
Qed.

Lemma rstrip_by_length p (s : str) : (length (rstrip_by p s) ≤ length s)%nat.
Proof.
  unfold rstrip_by. rewrite length_reverse.
  etrans; [apply lstrip_by_length|]. by rewrite length_reverse.
Qed.

Lemma strip_length (s : str) : (length (strip s) ≤ length s)%nat.
Proof.
  unfold strip. etrans; [apply rstrip_by_length|apply lstrip_by_length].
Qed.

Lemma strip_len (s : str) : len (strip s) ≤ len s.
Proof. unfold len. pose proof (strip_length s). lia. Qed.

Lemma clamp_index_range n i : 0 ≤ n → 0 ≤ clamp_index n i ≤ n.
Proof. unfold clamp_index. intros. destruct (Z.ltb_spec i 0); lia. Qed.

Lemma clamp_index_nonneg n i : 0 ≤ i → clamp_index n i = Z.min i n.
Proof. unfold clamp_index. intros. destruct (Z.ltb_spec i 0); lia. Qed.

(** A slice with non-negative bounds is never longer than [hi - lo]. *)
Lemma slice_len_le (s : str) lo hi :
  0 ≤ lo → lo ≤ hi → len (slice s lo hi) ≤ hi - lo.
Proof.
  intros Hlo Hhi. unfold slice, len.
  rewrite length_take, length_drop.
  rewrite !clamp_index_nonneg by lia.
  pose proof (len_nonneg s) as Hn. unfold len in *. lia.
Qed.

Lemma starts_with_prefix (sub s : str) :
  starts_with sub s = true ↔ sub `prefix_of` s.
Proof.
  revert s. induction sub as [|a sub IH]; intros s; simpl.
  - split; [intros _; apply prefix_nil | intros _; reflexivity].
  - destruct s as [|b s].
    + split; [done|]. intros [k Hk]. discriminate.
    + rewrite andb_true_iff, IH, N.eqb_eq. split.
      * intros [-> Hp]. by apply prefix_cons.
      * intros [k Hk]. simpl in Hk. injection Hk as -> ->.
        split; [reflexivity|]. by eexists.
Qed.

Lemma starts_with_length (sub s : str) :
  starts_with sub s = true → (length sub ≤ length s)%nat.
Proof. rewrite starts_with_prefix. apply prefix_length. Qed.

Lemma occurs_at_cons sub c (s : str) j :
  occurs_at sub (c :: s) (S j) ↔ occurs_at sub s j.
Proof. unfold occurs_at. simpl. split; intros [? ?]; split; auto; lia. Qed.

(** What [rfind_at] computes: either there is no occurrence at all, or the
    offset of the last one (shifted by the index of the suffix). *)
Lemma rfind_at_spec (s sub : str) (i : Z) :
  0 ≤ i →
  (rfind_at s sub i = -1 ∧ ∀ j, ¬ occurs_at sub s j)
  ∨ (∃ k, rfind_at s sub i = i + Z.of_nat k ∧ last_occurrence sub s k).
Proof.
  revert i. induction s as [|c s IH]; intros i Hi.
  - cbn [rfind_at]. destruct (starts_with sub []) eqn:E.
    + right. exists 0%nat. split; [lia|]. split.
      * split; [simpl; lia|]. by apply starts_with_prefix.
      * intros j [Hj _]. simpl in Hj. lia.
    + left. split; [done|]. intros j [Hj Hp]. simpl in Hj.
      assert (j = 0%nat) as -> by lia. simpl in Hp.
      apply starts_with_prefix in Hp. congruence.
  - cbn [rfind_at]. destruct (IH (i + 1)) as [[Hr Hno]|[k [Hr Hlast]]]; [lia| |].
    + rewrite Hr. destruct (Z.leb_spec 0 (-1)) as [?|_]; [lia|].
      destruct (starts_with sub (c :: s)) eqn:E.
      * right. exists 0%nat. split; [lia|]. split.
        -- split; [simpl; lia|]. by apply starts_with_prefix.
        -- intros [|j] Hj; [lia|]. apply occurs_at_cons in Hj.
           by destruct (Hno j).
      * left. split; [done|]. intros [|j] Hj.
        -- destruct Hj as [_ Hp]. simpl in Hp.
           apply starts_with_prefix in Hp. congruence.
        -- apply occurs_at_cons in Hj. by destruct (Hno j).
    + rewrite Hr. destruct (Z.leb_spec 0 (i + 1 + Z.of_nat k)); [|lia].
      right. exists (S k). split; [lia|]. destruct Hlast as [Hk Hmax]. split.
      * by apply occurs_at_cons.
      * intros [|j] Hj; [lia|]. apply occurs_at_cons in Hj.
        specialize (Hmax j Hj). lia.
Qed.

Lemma rfind_spec (w sub : str) :
  (rfind w sub = -1 ∧ ¬ occurs_in sub w)
  ∨ (∃ k, rfind w sub = Z.of_nat k ∧ last_occurrence sub w k).
Proof.
  unfold rfind. destruct (rfind_at_spec w sub 0) as [[Hr Hno]|[k [Hr Hk]]]; [lia| |].
  - left. split; [done|]. intros [j Hj]. by destruct (Hno j).
  - right. exists k. split; [lia|done].
Qed.

Lemma last_occurrence_unique sub (w : str) i j :
  last_occurrence sub w i → last_occurrence sub w j → i = j.
Proof.
  intros [Hi Hmi] [Hj Hmj]. specialize (Hmi j Hj). specialize (Hmj i Hi). lia.
Qed.

Lemma rfind_last (w sub : str) (k : nat) :
  rfind w sub = Z.of_nat k → last_occurrence sub w k.
Proof.
  intros Hr. destruct (rfind_spec w sub) as [[Hr' _]|[k' [Hr' Hk]]]; [lia|].
  by replace k with k' by lia.
Qed.

Lemma rfind_none (w sub : str) :
  rfind w sub = -1 → ¬ occurs_in sub w.
Proof.
  intros Hr. destruct (rfind_spec w sub) as [[_ Hno]|[k' [Hr' _]]]; [done|lia].
Qed.

(** Two ways of pointing at the first element of a list that satisfies a
    property point at the same element. *)
Lemma first_split_unique {A} (pre pre' post post' : list A) (b b' : A) :
  pre ++ b :: post = pre' ++ b' :: post' →
  b ∉ pre' → b' ∉ pre → pre = pre' ∧ b = b' ∧ post = post'.
Proof.
  revert pre'. induction pre as [|x pre IH]; intros [|x' pre']; simpl.
  - intros [= -> ->]. done.
  - intros [= -> _] Hb. exfalso. apply Hb. by left.
  - intros [= -> _] _ Hb. exfalso. apply Hb. by left.
  - intros [= -> Heq] Hb Hb'.
    destruct (IH pre' Heq) as (-> & -> & ->).
    + intros ?. apply Hb. by right.
    + intros ?. apply Hb'. by right.
    + done.
Qed.

Lemma occurs_at_fits sub (w : str) i :
  occurs_at sub w i → Z.of_nat i + len sub ≤ len w.
Proof.
  intros [Hi Hp]. apply prefix_length in Hp. rewrite length_drop in Hp.
  unfold len. lia.
Qed.

End PyFacts.

(** ** The chunker *)
Module PdfParserSpec.
Import Py PyFacts PdfParser.

Lemma next_start_increases end_ overlap start :
  start < next_start end_ overlap start.
Proof. unfold next_start. destruct (Z.leb_spec (end_ - overlap) start); lia. Qed.

Lemma next_start_cases end_ overlap start :
  next_start end_ overlap start
  = if decide (start < end_ - overlap) then end_ - overlap else start + 1.
Proof.
  unfold next_start.
  destruct (Z.leb_spec (end_ - overlap) start); case_decide; lia.
Qed.

Lemma boundaries_nonempty b : b ∈ boundaries → 1 ≤ len b.
Proof.
  unfold boundaries. rewrite !elem_of_cons, elem_of_nil.
  intros [->|[->|[->|[->|[]]]]]; unfold len; simpl; lia.
Qed.

(** The boundary search either leaves [end] alone because no boundary kind
    occurs in the window, or stops at the first kind that occurs and
    returns the position just after its last occurrence. *)
Lemma snap_spec full_text start end_ bs :
  let window := slice full_text start end_ in
  (snap full_text start end_ bs = end_ ∧ ∀ b, b ∈ bs → ¬ occurs_in b window)
  ∨ (∃ pre b post k,
        bs = pre ++ b :: post
        ∧ (∀ b', b' ∈ pre → ¬ occurs_in b' window)
        ∧ last_occurrence b window k
        ∧ snap full_text start end_ bs = start + Z.of_nat k + len b).
Proof.
  intros window. induction bs as [|b bs IH]; cbn [snap].
  - left. split; [done|]. intros b Hb. by apply elem_of_nil in Hb.
  - fold window.
    destruct (rfind_spec window b) as [[Hr Hno]|[k [Hr Hk]]]; rewrite Hr.
    + rewrite Z.eqb_refl.
      destruct IH as [[He Hnone]|(pre & b' & post & k & -> & Hpre & Hk & He)].
      * left. split; [done|]. intros b' [->|Hb']%elem_of_cons; auto.
      * right. exists (b :: pre), b', post, k. split_and!; try done.
        intros b'' [->|Hb'']%elem_of_cons; auto.
    + destruct (Z.eqb_spec (Z.of_nat k) (-1)) as [?|_]; [lia|].
      right. exists [], b, bs, k. split_and!; try done.
      intros b' Hb'. by apply elem_of_nil in Hb'.
Qed.

(** Snapping never moves [end] out of the window. *)
Lemma window_end_bounds full_text chunk_size start :
  0 ≤ start → 0 < chunk_size →
  start < window_end full_text chunk_size start ≤ start + chunk_size.
Proof.
  intros Hs Hc. unfold window_end.
  destruct (Z.ltb_spec (start + chunk_size) (len full_text)); [|lia].
  destruct (snap_spec full_text start (start + chunk_size) boundaries)
    as [[-> _]|(pre & b & post & k & Hbs & _ & [Hk _] & ->)]; [lia|].
  assert (1 ≤ len b) by (apply boundaries_nonempty; rewrite Hbs; set_solver).
  apply occurs_at_fits in Hk.
  pose proof (slice_len_le full_text start (start + chunk_size)). lia.
Qed.

Lemma chunk_len_le full_text chunk_size start :
  0 ≤ start → 0 < chunk_size →
  len (strip (slice full_text start (window_end full_text chunk_size start)))
  ≤ chunk_size.
Proof.
  intros Hs Hc. pose proof (window_end_bounds full_text chunk_size start Hs Hc).
  etrans; [apply strip_len|].
  etrans; [apply slice_len_le|]; lia.
Qed.

(** Fuel that covers the distance to the end of the text is enough. *)
Lemma chunk_loop_enough fuel : ∀ full_text chunk_size overlap start chunks,
  (Z.to_nat (len full_text - start) ≤ fuel)%nat →
  is_Some (chunk_loop fuel full_text chunk_size overlap start chunks).
Proof.
  induction fuel as [|fuel IH]; intros full_text chunk_size overlap start chunks Hf;
    cbn [chunk_loop]; destruct (Z.ltb_spec start (len full_text)); try done; try lia.
  unfold chunk_iter. apply IH.
  pose proof (next_start_increases
    (window_end full_text chunk_size start) overlap start). lia.
Qed.

(** Additional fuel does not change the result. *)
Lemma chunk_loop_more fuel : ∀ fuel' full_text chunk_size overlap start chunks r,
  (fuel ≤ fuel')%nat →
  chunk_loop fuel full_text chunk_size overlap start chunks = Some r →
  chunk_loop fuel' full_text chunk_size overlap start chunks = Some r.
Proof.
  induction fuel as [|fuel IH]; intros fuel' full_text chunk_size overlap start chunks r Hf;
    cbn [chunk_loop]; destruct fuel' as [|fuel']; cbn [chunk_loop];
    destruct (Z.ltb_spec start (len full_text)); try done; try lia.
  unfold chunk_iter. apply IH. lia.
Qed.

(** A property of every chunk produced from a non-negative [start] holds
    of every chunk of the result. *)
Lemma chunk_loop_Forall (P : str → Prop) full_text chunk_size overlap :
  (∀ start, 0 ≤ start →
     P (strip (slice full_text start (window_end full_text chunk_size start)))) →
  ∀ fuel start chunks r,
    0 ≤ start → Forall P chunks →
    chunk_loop fuel full_text chunk_size overlap start chunks = Some r →
    Forall P r.
Proof.
  intros HP. induction fuel as [|fuel IH]; intros start chunks r Hs Hcs;
    cbn [chunk_loop]; destruct (Z.ltb_spec start (len full_text)); try done;
    try (intros [= <-]; done).
  unfold chunk_iter. apply IH.
  - pose proof (next_start_increases
      (window_end full_text chunk_size start) overlap start). lia.
  - destruct (nonempty _); [|done].
    apply Forall_app. split; [done|]. constructor; [|constructor]. by apply HP.
Qed.

Lemma extract_text_from_pdf_total pages chunk_size overlap :
  is_Some (extract_text_from_pdf pages chunk_size overlap).
Proof.
  unfold extract_text_from_pdf. destruct (nonempty _); [|done].
  apply chunk_loop_enough. unfold len. lia.
Qed.

(** C2. Whatever the text, the chunk size and the overlap (in particular
    when the overlap is at least the chunk size), one iteration of the
    chunking loop moves [start] strictly forward: the next start is
    [end - overlap], replaced by [start + 1] when that is not beyond the
    current start.  Hence the loop terminates: fuel equal to the distance
    to the end of the text always yields a result, and so does
    [extract_text_from_pdf]. *)
Theorem chunker_start_increases_and_terminates
    (pages : list str) (full_text : str) (chunk_size overlap : Z) :
  (∀ start chunks,
      start < (chunk_iter full_text chunk_size overlap start chunks).2)
  ∧ (∀ end_ start,
      next_start end_ overlap start
      = if decide (end_ - overlap ≤ start) then start + 1 else end_ - overlap)
  ∧ (∀ fuel start chunks,
      (Z.to_nat (len full_text - start) ≤ fuel)%nat →
      is_Some (chunk_loop fuel full_text chunk_size overlap start chunks))
  ∧ is_Some (chunk_loop (length full_text) full_text chunk_size overlap 0 [])
  ∧ is_Some (extract_text_from_pdf pages chunk_size overlap).
Proof.
  split_and!.
  - intros start chunks. unfold chunk_iter. cbn [snd]. apply next_start_increases.
  - intros end_ start. unfold next_start.
    destruct (Z.leb_spec (end_ - overlap) start); case_decide; lia.
  - intros fuel start chunks. apply chunk_loop_enough.
  - apply chunk_loop_enough. unfold len. lia.
  - apply extract_text_from_pdf_total.
Qed.

Lemma chunker_start_increases_and_terminates_witness :
  (Z.to_nat (len (lit "ab. cdefgh") - 3) ≤ 8)%nat
  ∧ is_Some (chunk_loop 8 (lit "ab. cdefgh") 5 7 3 []).
Proof.
  split; [vm_compute; lia|].
  apply (proj1 (proj2 (proj2
    (chunker_start_increases_and_terminates [] (lit "ab. cdefgh") 5 7)))).
  vm_compute; lia.
Defined.

(** C10. For a positive chunk size every chunk that
    [extract_text_from_pdf] returns has at most [chunk_size] characters:
    the end of a window is never beyond [start + chunk_size], snapped or
    not, and trimming only removes characters. *)
Theorem chunks_within_chunk_size (pages : list str) (chunk_size overlap : Z) :
  0 < chunk_size →
  (∃ chunks, extract_text_from_pdf pages chunk_size overlap = Some chunks
             ∧ Forall (λ chunk, len chunk ≤ chunk_size) chunks)
  ∧ (∀ start, 0 ≤ start →
       window_end (join_pages pages) chunk_size start ≤ start + chunk_size)
  ∧ (∀ s, len (strip s) ≤ len s).
Proof.
  intros Hc. split_and!.
  - destruct (extract_text_from_pdf_total pages chunk_size overlap)
      as [chunks Hr].
    exists chunks. split; [done|].
    unfold extract_text_from_pdf in Hr. destruct (nonempty _).
    + eapply (chunk_loop_Forall _ _ _ _ (λ start Hs, chunk_len_le _ _ start Hs Hc));
        [| |exact Hr]; [lia|constructor].
    + injection Hr as <-. constructor.
  - intros start Hs. by apply window_end_bounds.
  - apply strip_len.
Qed.

Lemma chunks_within_chunk_size_witness :
  0 < 5
  ∧ ∃ chunks, extract_text_from_pdf [lit "ab. cdefgh"] 5 4 = Some chunks
              ∧ Forall (λ chunk, len chunk ≤ 5) chunks.
Proof.
  split; [lia|].
  apply (proj1 (chunks_within_chunk_size [lit "ab. cdefgh"] 5 4 ltac:(lia))).
Defined.

(** C7 as the design document words it fails twice: the next
    window does not start at [end - overlap] when that is not beyond the
    current start ("ab. cdefgh", size 5, overlap 4: the window is cut to
    end at 4 and the next start is 1, not 0), and a window that reaches
    the end of the text is not cut at a boundary it contains ("a. b",
    size 5). *)
Lemma next_start_is_not_always_end_minus_overlap :
  (let full_text := join_pages [lit "ab. cdefgh"] in
   let end_ := window_end full_text 5 0 in
   last_occurrence (lit ". ") (slice full_text 0 (0 + 5)) 2
   ∧ end_ = 0 + 2 + len (lit ". ")
   ∧ (chunk_iter full_text 5 4 0 []).2 = 1
   ∧ (chunk_iter full_text 5 4 0 []).2 ≠ end_ - 4)
  ∧ (let full_text := join_pages [lit "a. b"] in
     len full_text = 5
     ∧ last_occurrence (lit ". ") (slice full_text 0 (0 + 5)) 1
     ∧ window_end full_text 5 0 = 5
     ∧ window_end full_text 5 0 ≠ 0 + 1 + len (lit ". ")).
Proof.
  split; cbv zeta; split_and!; try (apply rfind_last); by vm_compute.
Qed.

(** C7 (amended). For a window that ends before the end of the text
    ([start + chunk_size < len(full_text)]) the chunker takes the first of
    the boundaries ". ", "? ", "! ", newline that occurs in the window
    and moves [end] just after the last occurrence of that boundary; when
    none occurs, and for a window that reaches the end of the text, [end]
    stays [start + chunk_size].  The next window starts at
    [end - overlap] when that is beyond the current start, and at
    [start + 1] otherwise. *)
Theorem window_snaps_to_last_boundary
    (full_text : str) (chunk_size overlap start : Z) :
  let window := slice full_text start (start + chunk_size) in
  let end_ := window_end full_text chunk_size start in
  boundaries = [lit ". "; lit "? "; lit "! "; NL]
  ∧ (start + chunk_size < len full_text →
       (∀ pre b post k,
           boundaries = pre ++ b :: post →
           (∀ b', b' ∈ pre → ¬ occurs_in b' window) →
           last_occurrence b window k →
           end_ = start + Z.of_nat k + len b)
       ∧ ((∀ b, b ∈ boundaries → ¬ occurs_in b window) →
           end_ = start + chunk_size))
  ∧ (len full_text ≤ start + chunk_size → end_ = start + chunk_size)
  ∧ (∀ chunks,
       (chunk_iter full_text chunk_size overlap start chunks).2
       = if decide (start < end_ - overlap) then end_ - overlap
         else start + 1).
Proof.
  intros window end_. split_and!.
  - reflexivity.
  - intros Hlt. subst end_. unfold window_end.
    destruct (Z.ltb_spec (start + chunk_size) (len full_text)); [|lia].
    destruct (snap_spec full_text start (start + chunk_size) boundaries)
      as [[He Hnone]|(pre' & b' & post' & k' & Hbs' & Hpre' & Hk' & He)];
      subst window; split.
    + intros pre b post k Hbs _ [Hk _]. destruct (Hnone b).
      * rewrite Hbs. set_solver.
      * by exists k.
    + done.
    + intros pre b post k Hbs Hpre Hk. rewrite He.
      destruct (first_split_unique pre pre' post post' b b') as (_ & <- & _).
      * by rewrite <- Hbs.
      * intros Hin. apply (Hpre' b Hin). exists k. apply Hk.
      * intros Hin. apply (Hpre b' Hin). exists k'. apply Hk'.
      * by rewrite (last_occurrence_unique _ _ _ _ Hk Hk').
    + intros Hnone. destruct (Hnone b').
      * rewrite Hbs'. set_solver.
      * exists k'. apply Hk'.
  - intros Hge. subst end_. unfold window_end.
    destruct (Z.ltb_spec (start + chunk_size) (len full_text)); [lia|done].
  - intros chunks. unfold chunk_iter. cbn [snd]. apply next_start_cases.
Qed.

Lemma window_snaps_to_last_boundary_witness :
  let full_text := join_pages [lit "ab. cdefgh"] in
  0 + 5 < len full_text
  ∧ window_end full_text 5 0 = 0 + Z.of_nat 2 + len (lit ". ").
Proof.
  cbv zeta. split; [by vm_compute|].
  refine (proj1 (proj1 (proj2 (window_snaps_to_last_boundary
            (join_pages [lit "ab. cdefgh"]) 5 4 0)) _)
            [] (lit ". ") [lit "? "; lit "! "; NL] 2%nat _ _ _).
  - by vm_compute.
  - reflexivity.
  - intros b' Hb'. by apply elem_of_nil in Hb'.
  - apply rfind_last. by vm_compute.
Defined.

End PdfParserSpec.

(** ** Extraction from one chunk *)
Module ExtractionSpec.
Import Py PyFacts GraphBuilder.

Lemma lstrip_by_suffix p (s : str) : lstrip_by p s `suffix_of` s.
Proof.
  induction s as [|c s IH]; simpl; [done|].
  destruct (p c); [|done]. by apply suffix_cons_r.
Qed.

Lemma lstrip_by_keeps p (s : str) :
  (∀ c s', s = c :: s' → p c = false) → lstrip_by p s = s.
Proof.
  destruct s as [|c s]; simpl; [done|]. intros Hc. by rewrite (Hc c s).
Qed.

Lemma lstrip_by_full_length p (s : str) :
  length (lstrip_by p s) = length s → lstrip_by p s = s.
Proof.
  intros Hl. destruct (lstrip_by_suffix p s) as [k Hk].
  assert (length k = 0%nat) as Hk0.
  { apply (f_equal length) in Hk. rewrite length_app in Hk. lia. }
  destruct k; [|done]. by rewrite Hk at 2.
Qed.

Lemma lstrip_by_fixed_head p (s : str) c s' :
  lstrip_by p s = s → s = c :: s' → p c = false.
Proof.
  intros Hs ->. simpl in Hs. destruct (p c) eqn:E; [|done].
  pose proof (lstrip_by_length p s') as Hl. rewrite Hs in Hl. simpl in Hl. lia.
Qed.

Lemma lstrip_by_skip p (ws s : str) :
  Forall (λ c, p c = true) ws → lstrip_by p (ws ++ s) = lstrip_by p s.
Proof. induction 1 as [|c ws Hc _ IH]; simpl; [done|]. by rewrite Hc. Qed.

Lemma rstrip_by_skip p (s ws : str) :
  Forall (λ c, p c = true) ws → rstrip_by p (s ++ ws) = rstrip_by p s.
Proof.
  intros Hws. unfold rstrip_by. rewrite reverse_app, lstrip_by_skip; [done|].
  by apply Forall_reverse.
Qed.

Lemma rstrip_by_keeps p (s : str) :
  Forall (λ c, p c = false) s → rstrip_by p s = s.
Proof.
  intros Hs. unfold rstrip_by. rewrite lstrip_by_keeps; [apply reverse_involutive|].
  intros c s' Heq. apply Forall_reverse in Hs. rewrite Heq in Hs.
  by apply Forall_cons in Hs as [? _].
Qed.

(** A string that [strip] leaves alone is left alone by both halves. *)
Lemma strip_fixed (s : str) :
  strip s = s → lstrip_by isspace s = s ∧ rstrip_by isspace s = s.
Proof.
  intros Hs. assert (lstrip_by isspace s = s) as Hl.
  { apply lstrip_by_full_length.
    pose proof (lstrip_by_length isspace s).
    pose proof (rstrip_by_length isspace (lstrip_by isspace s)) as Hr.
    unfold strip in Hs. rewrite Hs in Hr. lia. }
  split; [done|]. unfold strip in Hs. by rewrite Hl in Hs.
Qed.

Lemma sub_fences_nil fuel : sub_fences fuel [] = [].
Proof. by destruct fuel. Qed.

(** Text without a backtick holds no fence and is copied. *)
Lemma sub_fences_plain (t rest : str) : ∀ fuel,
  BACKTICK ∉ t → (length t ≤ fuel)%nat →
  sub_fences fuel (t ++ rest) = t ++ sub_fences (fuel - length t) rest.
Proof.
  induction t as [|c t IH]; intros fuel Hb Hf; simpl.
  - by rewrite Nat.sub_0_r.
  - destruct fuel as [|fuel]; simpl in Hf; [lia|]. cbn [sub_fences].
    assert (c ≠ BACKTICK) as Hc by (intros ->; apply Hb; by left).
    replace (starts_with FENCE (c :: t ++ rest)) with false.
    + rewrite IH; [done| |lia]. intros ?. apply Hb. by right.
    + unfold FENCE. cbn [starts_with]. unfold BACKTICK in Hc.
      destruct (N.eqb_spec 96 c); [congruence|done].
Qed.

Lemma sub_fences_body (body : str) fuel :
  BACKTICK ∉ body → (length body + 2 ≤ fuel)%nat →
  sub_fences fuel (body ++ NL ++ FENCE) = body ++ NL.
Proof.
  intros Hb Hf. rewrite app_assoc, sub_fences_plain.
  - destruct (fuel - _)%nat eqn:E.
    + rewrite length_app in E. simpl in E. lia.
    + cbn. by rewrite sub_fences_nil, app_nil_r.
  - rewrite elem_of_app. intros [Hn|Hn]; [done|].
    by apply list_elem_of_singleton in Hn.
  - rewrite length_app. simpl. lia.
Qed.

(** One round on a text that starts with a fence marker. *)
Lemma sub_fences_fence fuel (rest : str) :
  sub_fences (S fuel) (FENCE ++ rest)
  = sub_fences fuel
      (lstrip_by isspace (if starts_with JSON_TAG rest then drop 4 rest else rest)).
Proof. reflexivity. Qed.

(** A document between an opening fence, with or without the [json] tag,
    and a closing fence loses both fences. *)
Lemma strip_fences_fenced (tag body : str) :
  tag = JSON_TAG ∨ tag = [] →
  body ≠ [] → strip body = body → BACKTICK ∉ body →
  strip_fences (FENCE ++ tag ++ NL ++ body ++ NL ++ FENCE) = body ++ NL.
Proof.
  intros Htag Hne Hs Hb. destruct (strip_fixed body Hs) as [Hl Hr].
  unfold strip_fences.
  replace (length (FENCE ++ tag ++ NL ++ body ++ NL ++ FENCE))
    with (S (length tag + length body + 7))
    by (rewrite !length_app; simpl; lia).
  rewrite sub_fences_fence.
  assert (sub_fences (length tag + length body + 7)
            (lstrip_by isspace (NL ++ body ++ NL ++ FENCE)) = body ++ NL) as Hgoal;
    [|by destruct Htag as [-> | ->]].
  rewrite lstrip_by_skip by (by repeat constructor).
  rewrite lstrip_by_keeps.
  - apply sub_fences_body; [done|lia].
  - intros c s' Heq. destruct body as [|a body']; [done|].
    injection Heq as <- _. by eapply lstrip_by_fixed_head.
Qed.

Lemma cleaned_fenced (tag body : str) :
  tag = JSON_TAG ∨ tag = [] →
  body ≠ [] → strip body = body → BACKTICK ∉ body →
  cleaned (FENCE ++ tag ++ NL ++ body ++ NL ++ FENCE) = body.
Proof.
  intros Htag Hne Hs Hb. unfold cleaned.
  rewrite strip_fences_fenced by done.
  destruct (strip_fixed body Hs) as [Hl Hr].
  unfold strip. rewrite lstrip_by_keeps.
  - rewrite rstrip_by_skip by (by repeat constructor). rewrite Hr.
    apply rstrip_by_keeps. apply Forall_forall. intros c Hc.
    apply N.eqb_neq. intros ->. done.
  - intros c s' Heq. destruct body as [|a body']; [done|].
    injection Heq as <- _. by eapply lstrip_by_fixed_head.
Qed.

Lemma cleaned_plain (body : str) :
  strip body = body → BACKTICK ∉ body → cleaned body = body.
Proof.
  intros Hs Hb. unfold cleaned, strip_fences.
  rewrite <- (app_nil_r body) at 2. rewrite sub_fences_plain; [|done|lia].
  rewrite sub_fences_nil, app_nil_r, Hs.
  apply rstrip_by_keeps. apply Forall_forall. intros c Hc.
  apply N.eqb_neq. intros ->. done.
Qed.

(** What [_parse_llm_json] does with the outcome of [json.loads]. *)
Lemma parse_llm_json_cases `{Builtins} (text : str) :
  _parse_llm_json (VStr text)
  = match json_loads (cleaned text) with
    | Ok parsed => Ok parsed
    | Raise JSONDecodeError => Ok EMPTY
    | Raise e => Raise e
    end.
Proof.
  unfold _parse_llm_json, try_except.
  by destruct (json_loads (cleaned text)) as [parsed|[]].
Qed.

Lemma extract_ok `{Builtins} (response : result value) :
  ∃ r, _extract_with_timeout response = Ok r.
Proof.
  unfold _extract_with_timeout, try_except.
  destruct (bind response _) as [r|[]]; eauto.
Qed.

(** The result of [_extract_with_timeout] on a well shaped document, and on
    everything else. *)
Lemma extract_parsed `{Builtins} (text : str) :
  _extract_with_timeout (Ok (VStr text))
  = match json_loads (cleaned text) with
    | Ok parsed => Ok (if well_shaped parsed then parsed else EMPTY)
    | Raise _ => Ok EMPTY
    end.
Proof.
  unfold _extract_with_timeout. cbn [bind]. rewrite parse_llm_json_cases.
  destruct (json_loads (cleaned text)) as [parsed|e]; [|by destruct e].
  destruct parsed as [| | | | |d]; try done.
  cbn [bind get well_shaped].
  destruct (default (VList []) (dict_lookup K_entities d)); try done;
    destruct (default (VList []) (dict_lookup K_relationships d)); done.
Qed.

(** C5. [_extract_with_timeout] returns a result for every outcome of the
    model call and never raises.  The result is the empty structure when
    the call timed out or raised, when its content is not text, when the
    text left after removing code fences is rejected by [json.loads], and
    when the parsed document is not a dict with sized [entities] and
    [relationships]; otherwise it is the parsed document.  A document
    wrapped in a fence, tagged [json] or not, is parsed as the document
    alone. *)
Theorem extraction_never_raises `{Builtins} (response : result value) :
  ∃ r, _extract_with_timeout response = Ok r
    ∧ (∀ e, response = Raise e → r = EMPTY)
    ∧ (∀ content, response = Ok content →
         match content with
         | VStr text =>
             match json_loads (cleaned text) with
             | Ok parsed => r = if well_shaped parsed then parsed else EMPTY
             | Raise _ => r = EMPTY
             end
         | _ => r = EMPTY
         end)
    ∧ (∀ tag body,
         tag = JSON_TAG ∨ tag = [] →
         body ≠ [] → strip body = body → BACKTICK ∉ body →
         cleaned (FENCE ++ tag ++ NL ++ body ++ NL ++ FENCE) = body
         ∧ _extract_with_timeout
             (Ok (VStr (FENCE ++ tag ++ NL ++ body ++ NL ++ FENCE)))
           = _extract_with_timeout (Ok (VStr body))).
Proof.
  destruct (extract_ok response) as [r Hr]. exists r. split_and!; [done| | |].
  - intros e ->. destruct e; cbn in Hr; by injection Hr as <-.
  - intros content ->. destruct content as [| | |text| |];
      try (cbn in Hr; by injection Hr as <-).
    rewrite extract_parsed in Hr.
    destruct (json_loads (cleaned text)); by injection Hr as <-.
  - intros tag body Htag Hne Hs Hb. split; [by apply cleaned_fenced|].
    rewrite !extract_parsed, cleaned_fenced, cleaned_plain; done.
Qed.

Lemma extraction_never_raises_witness :
  lit "{}" ≠ [] ∧ (strip (lit "{}") = lit "{}") ∧ (BACKTICK ∉ lit "{}")
  ∧ _extract_with_timeout (H:=AsciiText.builtins)
      (Ok (VStr (FENCE ++ JSON_TAG ++ NL ++ lit "{}" ++ NL ++ FENCE)))
    = Ok (VDict []).
Proof.
  assert (BACKTICK ∉ lit "{}") as Hb
    by (apply (bool_decide_unpack _); vm_compute; exact I).
  split_and!; [done|by vm_compute|done|].
  destruct (extraction_never_raises (H:=AsciiText.builtins) (Ok VNone))
    as (_ & _ & _ & _ & Hfence).
  destruct (Hfence JSON_TAG (lit "{}")) as [_ ->];
    [by left|done|by vm_compute|done|by vm_compute].
Defined.

End ExtractionSpec.

(** ** Deduplication *)
Module DeduplicationSpec.
Import Py PyFacts GraphBuilder.




Lemma dict_lookup_None {V} (k : str) (d : list (str * V)) :
  dict_lookup k d = None ↔ k ∉ map fst d.
Proof.
  induction d as [|[k' v'] d IH]; simpl.
  - split; [intros _; apply not_elem_of_nil|done].
  - rewrite not_elem_of_cons. destruct (decide (k = k')) as [->|Hne].
    + split; [done|]. by intros [? _].
    + rewrite IH. split; [done|by intros [_ ?]].
Qed.











End DeduplicationSpec.

(** ** The extraction tasks and the semaphore *)
Module ConcurrencySpec.
Import Py PyFacts GraphBuilder.

Section Run.
Context `{Builtins} (llm : nat → str → result value) (chunks : list str).

(** A property that every step keeps holds after every run. *)
Lemma run_invariant (P : gather_state → Prop) :
  (∀ i s s', P s → advance llm chunks i s = Some s' → P s') →
  ∀ schedule s s', P s → run llm chunks schedule s = Some s' → P s'.
Proof.
  intros Hstep. induction schedule as [|i schedule IH]; intros s s' Hs; cbn [run].
  - by intros [= <-].
  - destruct (advance llm chunks i s) as [s1|] eqn:Hadv; [|done].
    apply IH. by eapply Hstep.
Qed.

(** The two kinds of step. *)
Lemma advance_cases i s s' :
  advance llm chunks i s = Some s' →
  (tasks s !! i = Some Waiting
   ∧ permits s = S (permits s')
   ∧ tasks s' = <[i := Running]> (tasks s))
  ∨ (∃ c, tasks s !! i = Some Running
     ∧ chunks !! i = Some c
     ∧ permits s' = S (permits s)
     ∧ tasks s' = <[i := Done (_extract_with_timeout (llm i c))]> (tasks s)).
Proof.
  unfold advance. destruct (tasks s !! i) as [[| |r]|] eqn:Ht; [| |done|done];
    destruct (chunks !! i) as [c|]; try done.
  - destruct (permits s) as [|p] eqn:Hp; [done|]. intros [= <-]. by left.
  - intros [= <-]. right. by exists c.
Qed.

(** Replacing one task changes the number of running tasks by what the
    old and the new task contribute. *)
Lemma sum_insert (weight : task → nat) (ts : list task) i old new :
  ts !! i = Some old →
  (sum_list (map weight (<[i := new]> ts)) + weight old
   = sum_list (map weight ts) + weight new)%nat.
Proof.
  revert i. induction ts as [|t ts IH]; intros [|i]; cbn [lookup list_lookup]; try done.
  - intros [= ->]. simpl. lia.
  - intros Hi. specialize (IH i Hi). simpl. lia.
Qed.

(** Permits and running tasks always add up to the initial value. *)
Lemma permits_conserved i s s' :
  advance llm chunks i s = Some s' →
  (permits s' + outstanding s' = permits s + outstanding s)%nat.
Proof.
  intros [(Ht & Hp & Hts)|(c & Ht & _ & Hp & Hts)]%advance_cases;
    unfold outstanding; rewrite Hts, Hp;
    [pose proof (sum_insert (λ t, if is_running t then 1%nat else 0%nat)
                   _ _ _ Running Ht) as Hc
    |pose proof (sum_insert (λ t, if is_running t then 1%nat else 0%nat)
                   _ _ _ (Done (_extract_with_timeout (llm i c))) Ht) as Hc];
    simpl in Hc; lia.
Qed.

Lemma launch_outstanding max_parallel :
  outstanding (launch max_parallel chunks) = 0%nat.
Proof.
  unfold outstanding, launch. cbn [tasks].
  induction (length chunks) as [|n IH]; [done|].
  cbn [replicate]. simpl. by rewrite IH.
Qed.

(** Every step brings the run closer to its end. *)
Lemma advance_remaining i s s' :
  advance llm chunks i s = Some s' → (remaining s' < remaining s)%nat.
Proof.
  intros [(Ht & Hp & Hts)|(c & Ht & _ & Hp & Hts)]%advance_cases;
    unfold remaining; rewrite Hts;
    [pose proof (sum_insert steps_left _ _ _ Running Ht) as Hc
    |pose proof (sum_insert steps_left _ _ _
                   (Done (_extract_with_timeout (llm i c))) Ht) as Hc];
    simpl in Hc; lia.
Qed.

Lemma results_faithful_launch max_parallel :
  results_faithful llm chunks (launch max_parallel chunks).
Proof.
  split; [apply length_replicate|].
  intros i r Hi. cbn in Hi. by apply lookup_replicate in Hi as [? _].
Qed.

Lemma results_faithful_advance i s s' :
  results_faithful llm chunks s → advance llm chunks i s = Some s' →
  results_faithful llm chunks s'.
Proof.
  intros [Hlen Hdone] [(Ht & Hp & Hts)|(c & Ht & Hc & Hp & Hts)]%advance_cases;
    (split; [by rewrite Hts, length_insert|]); rewrite Hts; intros j r;
    (destruct (decide (i = j)) as [<-|Hne];
      [rewrite list_lookup_insert_eq by (by eapply lookup_lt_Some)
      |rewrite list_lookup_insert_ne by done; apply Hdone]).
  - done.
  - intros [= <-]. by exists c.
Qed.

(** [extract_all] never raises and lists the result of every chunk. *)
Lemma extract_all_ok (cs : list str) : ∀ i0,
  ∃ rs, extract_all llm i0 cs = Ok rs
    ∧ length rs = length cs
    ∧ ∀ j c, cs !! j = Some c →
        ∃ r, rs !! j = Some r ∧ _extract_with_timeout (llm (i0 + j) c) = Ok r.
Proof.
  induction cs as [|c cs IH]; intros i0.
  - exists []. by split_and!.
  - destruct (ExtractionSpec.extract_ok (llm i0 c)) as [r Hr].
    destruct (IH (S i0)) as (rs & Hrs & Hlen & Hall).
    exists (r :: rs). cbn [extract_all]. rewrite Hr, Hrs. split_and!; [done|by simpl; f_equal|].
    intros [|j] c'; cbn [lookup list_lookup].
    + intros [= <-]. exists r. by rewrite Nat.add_0_r.
    + intros Hj. destruct (Hall j c' Hj) as (r' & ? & ?). exists r'.
      by replace (i0 + S j)%nat with (S i0 + j)%nat by lia.
Qed.

(** When [gather] yields, every task is done and the results are those of
    [extract_all]. *)
Lemma gathered_extract_all (ts : list task) : ∀ (cs : list str) i0 results,
  length ts = length cs →
  (∀ j r, ts !! j = Some (Done r) →
     ∃ c, cs !! j = Some c ∧ r = _extract_with_timeout (llm (i0 + j) c)) →
  gathered ts = Some results →
  Forall (λ t, is_done t = true) ts ∧ results = extract_all llm i0 cs.
Proof.
  induction ts as [|t ts IH]; intros [|c cs] i0 results Hlen Hdone; try done.
  - cbn. by intros [= <-].
  - injection Hlen as Hlen.
    assert (∀ j r, ts !! j = Some (Done r) →
              ∃ c, cs !! j = Some c ∧ r = _extract_with_timeout (llm (S i0 + j) c))
      as Hdone'.
    { intros j r Hj. destruct (Hdone (S j) r Hj) as (c' & ? & ?). exists c'.
      by replace (S i0 + j)%nat with (i0 + S j)%nat by lia. }
    destruct (extract_all_ok cs (S i0)) as (rs & Hrs & _).
    cbn [gathered extract_all]. destruct t as [| |[r|e]].
    + destruct (gathered ts) as [[rs'|e]|] eqn:Hg; try done.
      destruct (IH cs (S i0) (Raise e) Hlen Hdone' eq_refl) as [_ He]. congruence.
    + destruct (gathered ts) as [[rs'|e]|] eqn:Hg; try done.
      destruct (IH cs (S i0) (Raise e) Hlen Hdone' eq_refl) as [_ He]. congruence.
    + destruct (Hdone 0%nat (Ok r) eq_refl) as (c' & [= <-] & Hr).
      rewrite Nat.add_0_r in Hr. rewrite <- Hr. cbn [bind].
      destruct (gathered ts) as [[rs'|e]|] eqn:Hg; try done.
      * destruct (IH cs (S i0) (Ok rs') Hlen Hdone' eq_refl) as [Hall <-].
        intros [= <-]. split; [by constructor|done].
      * destruct (IH cs (S i0) (Raise e) Hlen Hdone' eq_refl) as [_ He]. congruence.
    + destruct (Hdone 0%nat (Raise e) eq_refl) as (c' & [= <-] & Hr).
      destruct (ExtractionSpec.extract_ok (llm (i0 + 0) c)) as [r Hr']. congruence.
Qed.

Lemma running_or_not (ts : list task) :
  (∃ i, ts !! i = Some Running) ∨ ¬ (∃ i, ts !! i = Some Running).
Proof.
  induction ts as [|t ts [[i Hi]|IH]].
  - right. by intros [i Hi].
  - left. by exists (S i).
  - destruct t as [| |r]; [right|left; by exists 0%nat|right];
      intros [[|i] Hi]; try done; apply IH; by exists i.
Qed.

Lemma no_running_outstanding (ts : list task) :
  ¬ (∃ i, ts !! i = Some Running) →
  sum_list (map (λ t, if is_running t then 1%nat else 0%nat) ts) = 0%nat.
Proof.
  induction ts as [|t ts IH]; intros Hnone; [done|].
  simpl. rewrite IH.
  - destruct t; try done. destruct Hnone. by exists 0%nat.
  - intros [i Hi]. apply Hnone. by exists (S i).
Qed.

Lemma waiting_exists (ts : list task) :
  ¬ (∃ i, ts !! i = Some Running) → gathered ts = None →
  ∃ i, ts !! i = Some Waiting.
Proof.
  induction ts as [|t ts IH]; intros Hnone Hg; [done|].
  destruct t as [| |[r|e]].
  - by exists 0%nat.
  - destruct Hnone. by exists 0%nat.
  - destruct IH as [i Hi].
    + intros [i Hi]. apply Hnone. by exists (S i).
    + cbn in Hg. by destruct (gathered ts) as [[|]|].
    + by exists (S i).
  - done.
Qed.

(** While [gather] has not yielded, some task can take a step. *)
Lemma progress max_parallel s :
  (1 ≤ max_parallel)%nat →
  length (tasks s) = length chunks →
  (permits s + outstanding s = max_parallel)%nat →
  gathered (tasks s) = None →
  ∃ i s', advance llm chunks i s = Some s'.
Proof.
  intros Hk Hlen Hsum Hg.
  destruct (running_or_not (tasks s)) as [[i Hi]|Hnone].
  - destruct (lookup_lt_is_Some_2 chunks i) as [c Hc].
    { rewrite <- Hlen. by eapply lookup_lt_Some. }
    eexists i, _. unfold advance. by rewrite Hi, Hc.
  - pose proof (no_running_outstanding _ Hnone) as Hout.
    destruct (waiting_exists _ Hnone Hg) as [i Hi].
    destruct (lookup_lt_is_Some_2 chunks i) as [c Hc].
    { rewrite <- Hlen. by eapply lookup_lt_Some. }
    unfold outstanding in Hsum.
    destruct (permits s) as [|p] eqn:Hp; [lia|].
    eexists i, _. unfold advance. by rewrite Hi, Hc, Hp.
Qed.

End Run.

(** The result of an extraction is a dict with sized [entities] and
    [relationships]. *)
Lemma extract_well_shaped `{Builtins} (response : result value) r :
  _extract_with_timeout response = Ok r → well_shaped r = true.
Proof.
  destruct response as [content|e].
  - destruct content as [| | |text| |]; try (cbn; by intros [= <-]).
    rewrite ExtractionSpec.extract_parsed.
    destruct (json_loads (cleaned text)) as [parsed|e]; [|by intros [= <-]].
    destruct (well_shaped parsed) eqn:Hw; by intros [= <-].
  - destruct e; cbn; by intros [= <-].
Qed.

Lemma items_of_well_shaped (key : str) (parsed : value) :
  well_shaped parsed = true → key = K_entities ∨ key = K_relationships →
  bind (get parsed key (VList [])) iterate = Ok (items_of key parsed).
Proof.
  unfold well_shaped, items_of. destruct parsed as [| | | | |d]; try done.
  intros [He Hr]%andb_true_iff Hkey. cbn [get bind].
  destruct Hkey as [-> | ->].
  - by destruct (default (VList []) (dict_lookup K_entities d)).
  - by destruct (default (VList []) (dict_lookup K_relationships d)).
Qed.

(** The aggregation loop appends what every result contributes. *)
Lemma aggregate_concat (results : list value) : ∀ all_entities all_relationships,
  Forall (λ parsed, well_shaped parsed = true) results →
  aggregate results all_entities all_relationships
  = Ok (all_entities ++ concat (map (items_of K_entities) results),
        all_relationships ++ concat (map (items_of K_relationships) results)).
Proof.
  induction results as [|parsed results IH]; intros es rs Hall.
  - simpl. by rewrite !app_nil_r.
  - apply Forall_cons in Hall as [Hw Hall]. cbn [aggregate].
    pose proof (items_of_well_shaped K_entities parsed Hw (or_introl eq_refl)) as He.
    pose proof (items_of_well_shaped K_relationships parsed Hw (or_intror eq_refl)) as Hr.
    destruct (get parsed K_entities (VList [])) as [ev|]; [|done]. cbn [bind] in *.
    rewrite He. cbn [bind].
    destruct (get parsed K_relationships (VList [])) as [rv|]; [|done]. cbn [bind] in *.
    rewrite Hr. cbn [bind].
    rewrite IH by done. cbn [map concat]. by rewrite !app_assoc.
Qed.

Lemma run_conserves_permits `{Builtins} llm chunks max_parallel schedule s :
  run llm chunks schedule (launch max_parallel chunks) = Some s →
  (permits s + outstanding s = max_parallel)%nat.
Proof.
  apply (run_invariant llm chunks
           (λ s, (permits s + outstanding s = max_parallel)%nat)).
  - intros i s1 s2 Hs Hadv. by rewrite (permits_conserved _ _ _ _ _ Hadv).
  - by rewrite launch_outstanding, Nat.add_0_r.
Qed.

Lemma run_results_faithful `{Builtins} llm chunks max_parallel schedule s :
  run llm chunks schedule (launch max_parallel chunks) = Some s →
  results_faithful llm chunks s.
Proof.
  apply (run_invariant llm chunks (results_faithful llm chunks)).
  - intros i s1 s2. apply results_faithful_advance.
  - apply results_faithful_launch.
Qed.

(** C9. In every state that a run of the tasks reaches, the permits left
    and the extraction calls in flight add up to the initial value of the
    semaphore, so at most [max_parallel] calls are outstanding.  A task
    starts its call only by taking a permit, and the step that ends the
    call gives the permit back whatever the call produced.  The code
    launches the tasks with five permits. *)
Theorem at_most_max_parallel_outstanding `{Builtins}
    (llm : nat → str → result value) (chunks : list str)
    (max_parallel : nat) (schedule : list nat) (s : gather_state) :
  run llm chunks schedule (launch max_parallel chunks) = Some s →
  (outstanding s ≤ max_parallel)%nat
  ∧ (permits s + outstanding s = max_parallel)%nat
  ∧ (∀ i s', advance llm chunks i s = Some s' →
       (tasks s !! i = Some Waiting
        ∧ tasks s' !! i = Some Running
        ∧ permits s = S (permits s')
        ∧ outstanding s' = S (outstanding s))
       ∨ (tasks s !! i = Some Running
          ∧ (∃ c, chunks !! i = Some c
               ∧ tasks s' !! i = Some (Done (_extract_with_timeout (llm i c))))
          ∧ permits s' = S (permits s)
          ∧ outstanding s = S (outstanding s')))
  ∧ launch MAX_PARALLEL chunks
    = {| permits := 5; tasks := replicate (length chunks) Waiting |}.
Proof.
  intros Hrun. pose proof (run_conserves_permits _ _ _ _ _ Hrun) as Hsum.
  split_and!; [lia|done| |done].
  intros i s' Hadv. pose proof (permits_conserved _ _ _ _ _ Hadv) as Hcons.
  destruct (advance_cases _ _ _ _ _ Hadv)
    as [(Ht & Hp & Hts)|(c & Ht & Hc & Hp & Hts)]; [left|right].
  - split_and!; [done| |done|lia].
    rewrite Hts. apply list_lookup_insert_eq. by eapply lookup_lt_Some.
  - split_and!; [done| |done|lia].
    exists c. split; [done|]. rewrite Hts.
    apply list_lookup_insert_eq. by eapply lookup_lt_Some.
Qed.

Lemma at_most_max_parallel_outstanding_witness :
  let s := {| permits := 3; tasks := [Running; Running; Waiting] |} in
  let llm := λ (_ : nat) (_ : str), Raise TimeoutError in
  run (H:=AsciiText.builtins) llm [lit "a"; lit "b"; lit "c"] [0; 1]%nat
    (launch 5 [lit "a"; lit "b"; lit "c"]) = Some s
  ∧ (outstanding s ≤ 5)%nat.
Proof.
  cbv zeta. split; [reflexivity|].
  apply (at_most_max_parallel_outstanding (H:=AsciiText.builtins)
           (λ _ _, Raise TimeoutError) [lit "a"; lit "b"; lit "c"] 5 [0; 1]%nat).
  reflexivity.
Defined.

(** C4. [gather] yields only in a state where every task is done, and what
    it yields is the list of the extraction results of all chunks, in
    order; until then some task can take a step, and every step brings the
    run closer to its end.  The list has one result per chunk, which
    depends on that chunk's model call alone: changing the outcome of one
    chunk changes no other result.  The aggregation loop returns the
    concatenation of the entities and of the relationships of all
    results. *)
Theorem gather_collects_every_chunk `{Builtins}
    (llm : nat → str → result value) (chunks : list str)
    (max_parallel : nat) (schedule : list nat) (s : gather_state) :
  (1 ≤ max_parallel)%nat →
  run llm chunks schedule (launch max_parallel chunks) = Some s →
  (∀ results, gathered (tasks s) = Some results →
     Forall (λ t, is_done t = true) (tasks s)
     ∧ results = extract_all llm 0 chunks)
  ∧ (gathered (tasks s) = None →
     ∃ i s', advance llm chunks i s = Some s'
             ∧ (remaining s' < remaining s)%nat)
  ∧ ∃ rs, extract_all llm 0 chunks = Ok rs
      ∧ length rs = length chunks
      ∧ (∀ i c, chunks !! i = Some c →
           ∃ r, rs !! i = Some r ∧ _extract_with_timeout (llm i c) = Ok r)
      ∧ (∀ llm' j rs',
           (∀ i c, i ≠ j → llm' i c = llm i c) →
           extract_all llm' 0 chunks = Ok rs' →
           ∀ i, i ≠ j → rs' !! i = rs !! i)
      ∧ aggregate rs [] []
        = Ok (concat (map (items_of K_entities) rs),
              concat (map (items_of K_relationships) rs)).
Proof.
  intros Hk Hrun.
  pose proof (run_conserves_permits _ _ _ _ _ Hrun) as Hsum.
  destruct (run_results_faithful _ _ _ _ _ Hrun) as [Hlen Hdone].
  split_and!.
  - intros results Hg. by apply (gathered_extract_all llm (tasks s) chunks 0).
  - intros Hg. destruct (progress llm chunks max_parallel s Hk Hlen Hsum Hg)
      as (i & s' & Hadv).
    exists i, s'. split; [done|]. by eapply advance_remaining.
  - destruct (extract_all_ok llm chunks 0) as (rs & Hrs & Hlenrs & Hall).
    exists rs. split_and!; [done|done|done| |].
    + intros llm' j rs' Hsame Hrs' i Hi.
      destruct (extract_all_ok llm' chunks 0) as (rs'' & Hrs'' & Hlen' & Hall').
      assert (rs'' = rs') as -> by congruence.
      destruct (chunks !! i) as [c|] eqn:Hc.
      * destruct (Hall i c Hc) as (r & -> & Hr).
        destruct (Hall' i c Hc) as (r' & -> & Hr').
        simpl in Hr, Hr'. rewrite (Hsame i c Hi) in Hr'. congruence.
      * apply lookup_ge_None in Hc.
        rewrite (proj2 (lookup_ge_None rs' i)), (proj2 (lookup_ge_None rs i)); [done|lia..].
    + rewrite aggregate_concat; [done|].
      apply Forall_lookup. intros i r Hr.
      destruct (lookup_lt_is_Some_2 chunks i) as [c Hc].
      { rewrite <- Hlenrs. by eapply lookup_lt_Some. }
      destruct (Hall i c Hc) as (r' & Hr' & Hex).
      assert (r' = r) as -> by congruence. by eapply extract_well_shaped.
Qed.

Lemma gather_collects_every_chunk_witness :
  let llm := λ (i : nat) (_ : str),
    match i with
    | 0%nat => Ok (VStr (lit "{}"))
    | _ => Raise TimeoutError
    end in
  let chunks := [lit "a"; lit "b"] in
  (1 ≤ 5)%nat
  ∧ run (H:=AsciiText.builtins) llm chunks [0; 1; 1; 0]%nat (launch 5 chunks)
    = Some {| permits := 5; tasks := [Done (Ok (VDict [])); Done (Ok EMPTY)] |}
  ∧ extract_all (H:=AsciiText.builtins) llm 0 chunks = Ok [VDict []; EMPTY].
Proof.
  cbv zeta. split; [lia|]. split; [reflexivity|].
  destruct (gather_collects_every_chunk (H:=AsciiText.builtins)
              (λ (i : nat) (_ : str),
                 match i with
                 | 0%nat => Ok (VStr (lit "{}"))
                 | _ => Raise TimeoutError
                 end)
              [lit "a"; lit "b"] 5 [0; 1; 1; 0]%nat
              {| permits := 5; tasks := [Done (Ok (VDict [])); Done (Ok EMPTY)] |}
              ltac:(lia) eq_refl) as (Hg & _ & _).
  symmetry. by apply Hg.
Defined.

End ConcurrencySpec.

(** ** The graph writer *)
Module WriterSpec.
Import Py PyFacts Neo4j GraphBuilder.





(** A counted node write is a node upsert in the store, and the node loop
    writes no relationship. *)
Lemma write_node_counts `{Builtins} env document_name st n entity st' n' :
  write_node env document_name st n entity = (st', Ok n') →
  node_writes st' - node_writes st = n' - n
  ∧ edge_writes st' = edge_writes st.
Proof.
  unfold write_node.
  destruct (get entity K_name (VStr (lit "Unknown"))) as [name|e]; cbn [bind].
  2:{ destruct (get entity K_name VNone); cbn [bind]; [|done].
      intros [= <- <-]. lia. }
  destruct (get entity K_type _) as [type|e]; cbn [bind].
  2:{ destruct (get entity K_name VNone); cbn [bind]; [|done].
      intros [= <- <-]. lia. }
  destruct (get entity K_description _) as [description|e]; cbn [bind].
  2:{ destruct (get entity K_name VNone); cbn [bind]; [|done].
      intros [= <- <-]. lia. }
  unfold execute_query. destruct (call_fails env (calls st)).
  { destruct (get entity K_name VNone); cbn [bind]; [|done].
    intros [= <- <-]. cbn. lia. }
  destruct name; try (destruct (get entity K_name VNone); cbn [bind]; [|done];
    intros [= <- <-]; cbn; lia).
  intros [= <- <-]. cbn. lia.
Qed.

(** A relationship write is counted at least as often as it materialises
    an edge, and writes no node. *)
Lemma write_relationship_counts `{Builtins} env st n rel st' n' :
  write_relationship env st n rel = (st', Ok n') →
  0 ≤ edge_writes st' - edge_writes st ≤ n' - n
  ∧ node_writes st' = node_writes st.
Proof.
  unfold write_relationship.
  destruct (bind (get rel K_source (VStr [])) _) as [[[[source target] rel_type] description]|e];
    [|done].
  destruct (negb (nonempty source) || negb (nonempty target)).
  { intros [= <- <-]. lia. }
  unfold execute_query at 1. destruct (call_fails env (calls st)); cbn [negb].
  - unfold execute_query. cbn [calls received db_graph].
    destruct (call_fails env (S (calls st))).
    + intros [= <- <-]. cbn. lia.
    + destruct (endpoints_exist source target (db_graph st)); intros [= <- <-]; cbn; lia.
  - destruct (apoc_available env); cbn [negb].
    + destruct (endpoints_exist source target (db_graph st)).
      * destruct (apoc_merge _ _ _ _ _) as [g' e]. intros [= <- <-]. cbn. lia.
      * intros [= <- <-]. cbn. lia.
    + unfold execute_query. cbn [calls received db_graph].
      destruct (call_fails env (S (calls st))).
      * intros [= <- <-]. cbn. lia.
      * destruct (endpoints_exist source target (db_graph st)); intros [= <- <-]; cbn; lia.
Qed.

Lemma for_each_counts {A} (body : db → Z → A → db * result Z)
    (dn de : db → db → Z → Z → Prop) (items : list A) :
  (∀ st n, dn st st n n) →
  (∀ st n x st1 n1 st2 n2,
     body st n x = (st1, Ok n1) → dn st1 st2 n1 n2 → dn st st2 n n2) →
  ∀ st n st' n',
    for_each body st n items = (st', Ok n') → dn st st' n n'.
Proof.
  intros Hrefl Hstep. induction items as [|x items IH]; intros st n st' n'; cbn [for_each].
  - intros [= <- <-]. apply Hrefl.
  - destruct (body st n x) as [st1 [n1|e]] eqn:Hb; [|done].
    intros Hrest. eapply Hstep; [done|]. by apply IH.
Qed.

(** What the two counts of [build_knowledge_graph] do guarantee: every
    counted node is a node upsert, and no more edges materialise than
    relationships are counted. *)
Lemma build_knowledge_graph_counts `{Builtins} env llm chunks document_name st st' c :
  build_knowledge_graph env llm chunks document_name st = (st', Ok c) →
  nodes_created c = node_writes st' - node_writes st
  ∧ 0 ≤ edge_writes st' - edge_writes st ≤ relationships_created c.
Proof.
  unfold build_knowledge_graph.
  destruct (bind (extract_all llm 0 chunks) _) as [[unique_entities all_relationships]|e];
    [|done].
  destruct (for_each (write_node env document_name) st 0 unique_entities)
    as [st1 [n1|e]] eqn:Hnodes; [|done].
  destruct (for_each (write_relationship env) st1 0 all_relationships)
    as [st2 [n2|e]] eqn:Hrels; [|done].
  intros [= <- <-]. cbn [nodes_created relationships_created].
  apply (for_each_counts _
           (λ a b n n', node_writes b - node_writes a = n' - n
                        ∧ edge_writes b = edge_writes a)
           (λ _ _ _ _, True)) in Hnodes.
  - apply (for_each_counts _
             (λ a b n n', 0 ≤ edge_writes b - edge_writes a ≤ n' - n
                          ∧ node_writes b = node_writes a)
             (λ _ _ _ _, True)) in Hrels.
    + lia.
    + intros; lia.
    + intros sa n x sb nb sc nc Hb Hd. apply write_relationship_counts in Hb. lia.
  - intros; lia.
  - intros sa n x sb nb sc nc Hb Hd. apply write_node_counts in Hb. lia.
Qed.

(** C1 on the run of [Scenario]: the relationship from Alice to Bob is
    counted ([relationships_created] is 1) although no node Bob exists,
    the store holds no edge afterwards and no relationship write took
    effect. *)
Theorem counted_relationship_is_not_materialised :
  let out :=
    build_knowledge_graph (H:=Scenario.one_chunk_builtins) Scenario.env Scenario.llm
      Scenario.chunks Scenario.document_name Scenario.empty_store in
  out.2 = Ok {| nodes_created := 1; relationships_created := 1 |}
  ∧ nodes (db_graph out.1) !! lit "Bob" = None
  ∧ is_Some (nodes (db_graph out.1) !! lit "Alice")
  ∧ edges (db_graph out.1) = []
  ∧ node_writes out.1 = 1
  ∧ edge_writes out.1 = 0
  ∧ calls out.1 = 2%nat.
Proof. cbv zeta. split_and!; vm_compute; try done. by eexists. Qed.

(** The end-to-end run of the design document reports two nodes and one
    relationship, as expected there; but deduplication keeps the record
    named "alice", so the node is called "alice", the relationship's source
    "Alice" matches no node, and the store holds no edge. *)
Example end_to_end_run_has_no_edge :
  let out :=
    build_knowledge_graph (H:=Scenario.three_chunk_builtins) Scenario.env
      Scenario.three_chunk_llm Scenario.three_chunks Scenario.document_name
      Scenario.empty_store in
  out.2 = Ok {| nodes_created := 2; relationships_created := 1 |}
  ∧ nodes (db_graph out.1) !! lit "Alice" = None
  ∧ is_Some (nodes (db_graph out.1) !! lit "alice")
  ∧ is_Some (nodes (db_graph out.1) !! lit "Acme Corp")
  ∧ edges (db_graph out.1) = []
  ∧ edge_writes out.1 = 0.
Proof. cbv zeta. split_and!; vm_compute; try done; by eexists. Qed.

End WriterSpec.

(** ** Subgraph retrieval *)
Module ChatEngineSpec.
Import Py PyFacts Neo4j ChatEngine.








End ChatEngineSpec.
